(** * logcabin: events, condition views and flow operators

    A shallow embedding of [logcabin/event.py] and [logcabin/flow.py]
    (Python 2), followed by the properties of the pipeline runtime that the
    specification states about them.

    Python objects are embedded as follows.
    - A Python value is a term of [value]; an [Event] (a [dict] subclass) is
      a finite map from field names to values.
    - A call that may raise returns a [result]; [Raise x] is the Python
      exception [x].  [Unmodelled] marks an input on which the Python
      standard library function being embedded leaves the fragment described
      at its definition; no statement below relies on it.
    - Events are mutable and shared by reference between a stage and the
      queues: they live in a [heap] and queues hold locations. *)

From Stdlib Require Import ZArith String Ascii List Lia Bool.
From stdpp Require Import base option list strings gmap fin_maps pretty.

Set Warnings "-register-all".

Local Open Scope string_scope.
Local Open Scope list_scope.
Local Open Scope nat_scope.

(** ** Python values *)

Module Py.

(** [datetime.datetime] without time zone, as [datetime.utcnow()] builds it. *)
Record datetime := Datetime {
  year : N; month : N; day : N;
  hour : N; minute : N; second : N; microsecond : N
}.

(** The ranges the [datetime] constructor enforces (days per month left out). *)
Definition valid_datetime (d : datetime) : Prop :=
  (1 <= year d <= 9999 /\ 1 <= month d <= 12 /\ 1 <= day d <= 31 /\
   hour d < 24 /\ minute d < 60 /\ second d < 60 /\ microsecond d < 1000000)%N.

(** [VAttr k] is the object found under the class attribute [k] of an event
    (a bound method for the methods of [Event] and [dict]). *)
Inductive value :=
| VNone
| VBool (b : bool)
| VInt (z : Z)
| VStr (s : string)
| VList (l : list value)
| VDatetime (d : datetime)
| VAttr (name : string).

Inductive exn :=
| KeyError (key : string)
| IndexError
| TypeError
| AttributeError
| ValueError
| SyntaxError
| NameError
| ConfigurationError.

Inductive result (A : Type) :=
| Ok (a : A)
| Raise (x : exn)
| Unmodelled.
Arguments Ok {A} a.
Arguments Raise {A} x.
Arguments Unmodelled {A}.

Definition bind {A B} (r : result A) (k : A -> result B) : result B :=
  match r with
  | Ok a => k a
  | Raise x => Raise x
  | Unmodelled => Unmodelled
  end.

Definition is_Ok {A} (r : result A) : bool :=
  match r with Ok _ => true | _ => false end.

(** Truth value of an object in [if] and in [and]/[or]/[not].  The instance
    dictionary [__dict__] of an event is empty, hence false; every other
    class attribute kept as [VAttr] is a method, a class or a non-empty
    string. *)
Definition truthy (v : value) : bool :=
  match v with
  | VNone => false
  | VBool b => b
  | VInt z => negb (Z.eqb z 0)
  | VStr s => negb (String.eqb s "")
  | VList l => match l with [] => false | _ => true end
  | VDatetime _ => true
  | VAttr k => negb (String.eqb k "__dict__")
  end.

End Py.
Export Py.

Notation "x <- r ;; k" := (Py.bind r (fun x => k))
  (at level 100, r at next level, right associativity).

(** ** logcabin/event.py *)

(** An event is a dict; its keys are field names. *)
Abbreviation Event := (gmap string value).

(** [self.get(k)] and [self.get(k, d)] of [dict]. *)
Definition dict_get (e : Event) (k : string) : value := default VNone (e !! k).
Definition dict_get_default (e : Event) (k : string) (d : value) : value :=
  default d (e !! k).

(** [Event.__init__]: the timestamp is stored first, then [dict.__init__]
    stores the keyword arguments (a [timestamp] argument overrides it). *)
Definition Event_init (utcnow : datetime) (kwargs : list (string * value)) : Event :=
  fold_left (fun e kv => <[kv.1 := kv.2]> e) kwargs {["timestamp" := VDatetime utcnow]}.

(** [Event.add_tag]: [self.setdefault('tags', []).append(value)].  A stored
    [tags] that is not a list has no [append]. *)
Definition add_tag (e : Event) (v : value) : result Event :=
  match e !! "tags" with
  | None => Ok (<["tags" := VList [v]]> e)
  | Some (VList l) => Ok (<["tags" := VList (l ++ [v])]> e)
  | Some _ => Raise AttributeError
  end.

(** The [tags] property: [self.get('tags', [])]. *)
Definition Event_tags (e : Event) : value := dict_get_default e "tags" (VList []).

(** [Event.__getattr__]: [self.get(k)]. *)
Definition Event___getattr__ (e : Event) (k : string) : value := dict_get e k.

(** Names defined in the body of [class Event], the property [tags] apart. *)
Definition Event_methods : list string :=
  ["__init__"; "add_tag"; "__getattr__"; "to_json"; "format"; "__repr__"].

(** Attributes an instance inherits from the builtin [dict] of Python 2.7. *)
Definition dict_attributes : list string :=
  ["__class__"; "__cmp__"; "__contains__"; "__delattr__"; "__delitem__";
   "__doc__"; "__eq__"; "__format__"; "__ge__"; "__getattribute__";
   "__getitem__"; "__gt__"; "__hash__"; "__iter__"; "__le__"; "__len__";
   "__lt__"; "__ne__"; "__new__"; "__reduce__"; "__reduce_ex__";
   "__setattr__"; "__setitem__"; "__sizeof__"; "__str__";
   "__subclasshook__"; "clear"; "copy"; "fromkeys"; "get"; "has_key";
   "items"; "iteritems"; "iterkeys"; "itervalues"; "keys"; "pop";
   "popitem"; "setdefault"; "update"; "values"; "viewitems"; "viewkeys";
   "viewvalues"].

(** Attributes every instance of a class statement has. *)
Definition instance_attributes : list string :=
  ["__dict__"; "__module__"; "__weakref__"].

(** All names that normal attribute lookup finds on an event. *)
Definition class_attributes : list string :=
  (Event_methods ++ dict_attributes ++ instance_attributes)%list.

Definition Event_attributes : list string := "tags" :: class_attributes.

(** What normal lookup finds under a class attribute other than [tags]:
    [dict.__hash__] is [None] and so is [__weakref__] of an object nobody
    references weakly. *)
Definition class_attribute (k : string) : option value :=
  if bool_decide (k ∈ class_attributes)
  then Some (if bool_decide (k ∈ ["__hash__"; "__weakref__"]) then VNone else VAttr k)
  else None.

(** [object.__getattribute__] on an event: the property [tags] is a data
    descriptor of the class and is tried first; the instance dictionary is
    empty (nothing in the program assigns an attribute of an event); then
    the class attributes. *)
Definition object___getattribute__ (e : Event) (k : string) : result value :=
  if String.eqb k "tags" then Ok (Event_tags e)
  else match class_attribute k with
       | Some v => Ok v
       | None => Raise AttributeError
       end.

(** [getattr(e, k)], that is [e.k]: [__getattr__] is called only when normal
    lookup raises [AttributeError]. *)
Definition getattr (e : Event) (k : string) : result value :=
  match object___getattribute__ e k with
  | Raise AttributeError => Ok (Event___getattr__ e k)
  | r => r
  end.

(** [hasattr(e, k)] of Python 2: true unless [getattr] raises. *)
Definition hasattr (e : Event) (k : string) : bool := is_Ok (getattr e k).

(** ** The event view of conditions: [DefaultDictProxy] in logcabin/flow.py *)

(** [DefaultDictProxy(d).__getitem__(k)], with [d] an event. *)
Definition DefaultDictProxy___getitem__ (d : Event) (k : string) : result value :=
  if hasattr d k then getattr d k else Ok (dict_get d k).

(** [DefaultDictProxy(d).__getattr__(k)]: [self[k]].  Python calls it for
    the names that are not attributes of the proxy object itself. *)
Definition DefaultDictProxy___getattr__ (d : Event) (k : string) : result value :=
  DefaultDictProxy___getitem__ d k.

(** The names normal lookup finds on the proxy object itself: its instance
    attribute [d], which holds the event, what the class statement gives
    it and what it inherits from [object]. *)
Definition DefaultDictProxy_attributes : list string :=
  ["d"; "__init__"; "__getattr__"; "__getitem__"; "__dict__"; "__doc__";
   "__module__"; "__weakref__"; "__class__"; "__delattr__"; "__format__";
   "__getattribute__"; "__hash__"; "__new__"; "__reduce__"; "__reduce_ex__";
   "__repr__"; "__setattr__"; "__sizeof__"; "__str__"; "__subclasshook__"].

(** [ev.k] on the view of the event [d]: an attribute of the proxy itself
    is found by normal lookup, and those objects (the event as a whole, the
    methods of the proxy) are outside the values modelled; for every other
    name Python calls [__getattr__]. *)
Definition view_attribute (d : Event) (k : string) : result value :=
  if bool_decide (k ∈ DefaultDictProxy_attributes) then Unmodelled
  else DefaultDictProxy___getattr__ d k.

(** ** Rendering of values *)

Definition digit (n : N) : ascii := ascii_of_N (48 + n mod 10).

(** The [w] low decimal digits of [n]: ['%0wd' % n] for [n < 10 ^ w], which
    holds of every field of a [datetime] at the widths used below. *)
Fixpoint zero_pad (w : nat) (n : N) : string :=
  match w with
  | 0 => ""
  | S w' => zero_pad w' (n / 10) +:+ String (digit n) ""
  end.

Definition isoformat_date (d : datetime) : string :=
  zero_pad 4 (year d) +:+ "-" +:+ zero_pad 2 (month d) +:+ "-" +:+ zero_pad 2 (day d).

Definition isoformat_time (d : datetime) : string :=
  zero_pad 2 (hour d) +:+ ":" +:+ zero_pad 2 (minute d) +:+ ":" +:+ zero_pad 2 (second d).

(** [datetime.isoformat(sep)]: the fraction is written only when the
    microsecond is not zero. *)
Definition isoformat_sep (sep : string) (d : datetime) : string :=
  isoformat_date d +:+ sep +:+ isoformat_time d +:+
  (if N.eqb (microsecond d) 0 then "" else "." +:+ zero_pad 6 (microsecond d)).

Definition isoformat (d : datetime) : string := isoformat_sep "T" d.

(** [str(v)], which is also [format(v, '')].  The [repr] of the elements of
    a list and of bound methods is outside the fragment. *)
Definition py_str (v : value) : result string :=
  match v with
  | VNone => Ok "None"
  | VBool true => Ok "True"
  | VBool false => Ok "False"
  | VInt z => Ok (pretty z)
  | VStr s => Ok s
  | VDatetime d => Ok (isoformat_sep " " d)
  | VList _ | VAttr _ => Unmodelled
  end.

(** ** [Event.format] and [DefaultFormatter] *)

(** What [Formatter.parse] yields, one chunk at a time and lazily: literal
    text (with the escapes [{{] and [}}] resolved) and replacement fields.
    The fragment is the plain fields [{name}] and [{N}]; a field with an
    attribute or index access, a conversion or a format specification is
    [Beyond] it.  [Malformed] is the [ValueError] the parser raises on a
    single brace. *)
Inductive chunk :=
| Text (s : string)
| Named (k : string)
| Positional (i : nat)
| Malformed
| Beyond.

Definition is_digit (c : ascii) : bool :=
  (48 <=? nat_of_ascii c) && (nat_of_ascii c <=? 57).

Fixpoint all_digits (s : string) : bool :=
  match s with
  | "" => true
  | String c s' => is_digit c && all_digits s'
  end.

Fixpoint decimal (acc : nat) (s : string) : nat :=
  match s with
  | "" => acc
  | String c s' => decimal (10 * acc + (nat_of_ascii c - 48)) s'
  end.

(** A field name made of digits only is a position in [args]; the parser
    rejects those that overflow, which nine digits never do. *)
Definition field_chunk (name : string) : chunk :=
  if negb (String.eqb name "") && all_digits name
  then (if String.length name <=? 9 then Positional (decimal 0 name) else Beyond)
  else Named name.

Definition field_special (c : ascii) : bool :=
  Ascii.eqb c "{" || Ascii.eqb c "." || Ascii.eqb c "[" || Ascii.eqb c "!" || Ascii.eqb c ":".

Definition text_chunk (acc : string) (rest : list chunk) : list chunk :=
  if String.eqb acc "" then rest else Text acc :: rest.

Fixpoint parse_text (s acc : string) {struct s} : list chunk :=
  match s with
  | "" => text_chunk acc []
  | String c s' =>
    if Ascii.eqb c "{" then
      match s' with
      | String c' s'' =>
        if Ascii.eqb c' "{" then parse_text s'' (acc +:+ "{")
        else text_chunk acc (parse_field s' "")
      | "" => text_chunk acc [Malformed]
      end
    else if Ascii.eqb c "}" then
      match s' with
      | String c' s'' =>
        if Ascii.eqb c' "}" then parse_text s'' (acc +:+ "}")
        else text_chunk acc [Malformed]
      | "" => text_chunk acc [Malformed]
      end
    else parse_text s' (acc +:+ String c "")
  end
with parse_field (s name : string) {struct s} : list chunk :=
  match s with
  | "" => [Malformed]
  | String c s' =>
    if Ascii.eqb c "}" then field_chunk name :: parse_text s' ""
    else if field_special c then [Beyond]
    else parse_field s' (name +:+ String c "")
  end.

Definition Formatter_parse (fmt : string) : list chunk := parse_text fmt "".

(** [Formatter.get_value]: [args[key]] for a position, [kwargs[key]] for a
    name; [kwargs] is the event and [args] defaults to [None]. *)
Definition Formatter_get_value (key : nat + string)
    (args : option (list value)) (kwargs : Event) : result value :=
  match key with
  | inl i =>
    match args with
    | None => Raise TypeError
    | Some l => match l !! i with Some v => Ok v | None => Raise IndexError end
    end
  | inr k => match kwargs !! k with Some v => Ok v | None => Raise (KeyError k) end
  end.

(** [DefaultFormatter.get_value]: only [KeyError] is caught. *)
Definition DefaultFormatter_default : value := VStr "".

Definition DefaultFormatter_get_value (key : nat + string)
    (args : option (list value)) (kwargs : Event) : result value :=
  match Formatter_get_value key args kwargs with
  | Raise (KeyError _) => Ok DefaultFormatter_default
  | r => r
  end.

Section Vformat.
Variable get_value : nat + string -> option (list value) -> Event -> result value.

(** [Formatter.vformat]: the chunks are rendered from left to right and
    the first failure ends the call. *)
Fixpoint vformat_chunks (cs : list chunk) (args : option (list value))
    (kwargs : Event) : result string :=
  match cs with
  | [] => Ok ""
  | Text s :: cs' => r <- vformat_chunks cs' args kwargs ;; Ok (s +:+ r)
  | Named k :: cs' =>
    obj <- get_value (inr k) args kwargs ;;
    s <- py_str obj ;;
    r <- vformat_chunks cs' args kwargs ;; Ok (s +:+ r)
  | Positional i :: cs' =>
    obj <- get_value (inl i) args kwargs ;;
    s <- py_str obj ;;
    r <- vformat_chunks cs' args kwargs ;; Ok (s +:+ r)
  | Malformed :: _ => Raise ValueError
  | Beyond :: _ => Unmodelled
  end.

Definition vformat (fmt : string) (args : option (list value)) (kwargs : Event)
  : result string :=
  vformat_chunks (Formatter_parse fmt) args kwargs.
End Vformat.

(** [Event.format]: [raise_missing and Formatter() or DefaultFormatter()]. *)
Definition Event_format (self : Event) (fmt : string)
    (args : option (list value)) (raise_missing : bool) : result string :=
  let get_value :=
    if raise_missing then Formatter_get_value else DefaultFormatter_get_value in
  vformat get_value fmt args self.

(** ** [Event.to_json] and [JSONEncoder] *)

(** The double quote character, as a string. *)
Definition quote : string := String (ascii_of_nat 34) EmptyString.

Definition hex_digit (n : nat) : ascii :=
  if n <? 10 then ascii_of_nat (48 + n) else ascii_of_nat (87 + n).

(** One character of [json.encoder.encode_basestring_ascii]: the quote and
    the backslash are escaped, control characters and DEL are written as
    [\n], [\r], [\t], [\b], [\f] or [\u00XX], printable ASCII stands for
    itself.  A byte above 127 is decoded as UTF-8 first, which is outside
    the fragment. *)
Definition escape_char (c : ascii) : result string :=
  let n := nat_of_ascii c in
  if n =? 34 then Ok ("\" +:+ quote)
  else if n =? 92 then Ok "\\"
  else if n =? 10 then Ok "\n"
  else if n =? 13 then Ok "\r"
  else if n =? 9 then Ok "\t"
  else if n =? 8 then Ok "\b"
  else if n =? 12 then Ok "\f"
  else if (n <? 32) || (n =? 127)
    then Ok ("\u00" +:+ String (hex_digit (n / 16)) (String (hex_digit (n mod 16)) ""))
  else if n <? 127 then Ok (String c "")
  else Unmodelled.

Fixpoint escape_string (s : string) : result string :=
  match s with
  | "" => Ok ""
  | String c s' =>
    x <- escape_char c ;; r <- escape_string s' ;; Ok (x +:+ r)
  end.

Definition encode_basestring_ascii (s : string) : result string :=
  r <- escape_string s ;; Ok (quote +:+ r +:+ quote).

(** [JSONEncoder.default]: a [datetime] becomes its [isoformat()]; for any
    other object the base class raises [TypeError]. *)
Definition JSONEncoder_default (obj : value) : result value :=
  match obj with
  | VDatetime d => Ok (VStr (isoformat d))
  | _ => Raise TypeError
  end.

(** The values [json] encodes without calling [default]. *)
Definition encode_scalar (v : value) : result string :=
  match v with
  | VNone => Ok "null"
  | VBool true => Ok "true"
  | VBool false => Ok "false"
  | VInt z => Ok (pretty z)
  | VStr s => encode_basestring_ascii s
  | _ => Unmodelled
  end.

Fixpoint join_results (sep : string) (l : list (result string)) : result string :=
  match l with
  | [] => Ok ""
  | [r] => r
  | r :: l' => x <- r ;; y <- join_results sep l' ;; Ok (x +:+ sep +:+ y)
  end.

(** [JSONEncoder.encode] on a value: lists are encoded element by element,
    an object of any other type goes through [default] first. *)
Fixpoint JSONEncoder_encode (v : value) : result string :=
  match v with
  | VList l =>
    r <- join_results ", " (map JSONEncoder_encode l) ;; Ok ("[" +:+ r +:+ "]")
  | VDatetime _ | VAttr _ => o <- JSONEncoder_default v ;; encode_scalar o
  | _ => encode_scalar v
  end.

Definition encode_item (kv : string * value) : result string :=
  k <- encode_basestring_ascii kv.1 ;;
  v <- JSONEncoder_encode kv.2 ;;
  Ok (k +:+ ": " +:+ v).

(** [json.dumps(self, cls=JSONEncoder)]: the items in the iteration order
    of the dict, which the map's enumeration stands for. *)
Definition to_json (self : Event) : result string :=
  r <- join_results ", " (map encode_item (map_to_list self)) ;;
  Ok ("{" +:+ r +:+ "}").

(** ** Condition strings: [compile(condition, 'string', 'eval')] and [eval] *)

(** The code objects of the fragment: an expression that is one name or
    one constant. *)
Inductive code :=
| LoadName (id : string)
| LoadConst (v : value).

Definition is_alpha (c : ascii) : bool :=
  let n := nat_of_ascii c in
  ((65 <=? n) && (n <=? 90)) || ((97 <=? n) && (n <=? 122)) || (n =? 95).

Fixpoint all_alnum (s : string) : bool :=
  match s with
  | "" => true
  | String c s' => (is_alpha c || is_digit c) && all_alnum s'
  end.

Definition is_identifier (s : string) : bool :=
  match s with
  | "" => false
  | String c s' => is_alpha c && all_alnum s'
  end.

(** The reserved words of Python 2; [True] and [False] are not among them,
    they are names of the builtin module. *)
Definition keywords : list string :=
  ["and"; "as"; "assert"; "break"; "class"; "continue"; "def"; "del"; "elif";
   "else"; "except"; "exec"; "finally"; "for"; "from"; "global"; "if";
   "import"; "in"; "is"; "lambda"; "not"; "or"; "pass"; "print"; "raise";
   "return"; "try"; "while"; "with"; "yield"].

(** [compile(source, 'string', 'eval')] on a source that is a single token:
    a reserved word is a syntax error, [None] is a constant, any other
    identifier is a name to look up, a decimal literal without leading
    zero is an integer constant.  Longer expressions are outside the
    fragment. *)
Definition compile (source : string) : result code :=
  if is_identifier source then
    if bool_decide (source ∈ keywords) then Raise SyntaxError
    else if String.eqb source "None" then Ok (LoadConst VNone)
    else Ok (LoadName source)
  else if String.eqb source "" then Raise SyntaxError
  else if all_digits source && (String.length source <=? 9)
          && negb (String.prefix "0" source && (1 <? String.length source))
    then Ok (LoadConst (VInt (Z.of_nat (decimal 0 source))))
  else Unmodelled.

(** The names [eval] finds in the builtin module when neither the locals
    nor the (empty) globals have them. *)
Definition builtin (id : string) : result value :=
  if String.eqb id "True" then Ok (VBool true)
  else if String.eqb id "False" then Ok (VBool false)
  else Unmodelled.

(** [eval(code, {}, ev)] with [ev] the view of an event: a name is looked
    up with [ev[name]] first, and in the globals and builtins only when
    that raises [KeyError]. *)
Definition eval (c : code) (ev : Event) : result value :=
  match c with
  | LoadConst v => Ok v
  | LoadName id =>
    match DefaultDictProxy___getitem__ ev id with
    | Raise (KeyError _) => builtin id
    | r => r
    end
  end.

(** ** Events on the heap, queues, and the stages of logcabin/flow.py *)

(** An input or output attribute of a stage: [NoQueue] is [None], [Queue n]
    the n-th queue allocated, [BroadcastQueue] the facade of [Fanout]. *)
Inductive queue :=
| NoQueue
| Queue (n : nat)
| BroadcastQueue (queues : list queue).

(** Events are objects: the heap maps a reference to the event's fields and
    a queue holds references, first in first out. *)
Record state := State {
  heap : gmap nat Event;
  queues : gmap nat (list nat)
}.

(** Computations that may change the state and may raise. *)
Definition M (A : Type) : Type := state -> result A * state.

Definition mret {A} (a : A) : M A := fun st => (Ok a, st).

Definition mbind {A B} (m : M A) (k : A -> M B) : M B :=
  fun st =>
    match m st with
    | (Ok a, st') => k a st'
    | (Raise x, st') => (Raise x, st')
    | (Unmodelled, st') => (Unmodelled, st')
    end.

Definition lift {A} (r : result A) : M A := fun st => (r, st).

Notation "'do' x <- m ; k" := (mbind m (fun x => k))
  (at level 10, x name, m at level 100, k at level 200).

Definition event_at (st : state) (l : nat) : Event := default ∅ (heap st !! l).

Definition set_event (l : nat) (e : Event) : M unit :=
  fun st => (Ok tt, State (<[l := e]> (heap st)) (queues st)).

(** The state after the reference [event] is appended to queue [n]. *)
Definition enqueue (n : nat) (event : nat) (st : state) : state :=
  State (heap st) (<[n := default [] (queues st !! n) ++ [event]]> (queues st)).

(** [Queue.put]: the reference is appended. *)
Definition Queue_put (n : nat) (event : nat) : M unit :=
  fun st => (Ok tt, enqueue n event st).

Section PutAll.
Variable put : queue -> nat -> M unit.

Fixpoint put_all (qs : list queue) (event : nat) : M unit :=
  match qs with
  | [] => mret tt
  | q :: qs' => do _ <- put q event ; put_all qs' event
  end.
End PutAll.

(** Modelled from the spec: [BroadcastQueue.put] of logcabin/util.py, which
    is not among the sources; on each put it enqueues the same event onto
    every underlying queue.  [None] has no [put]. *)
Fixpoint put (q : queue) (event : nat) {struct q} : M unit :=
  match q with
  | NoQueue => lift (Raise AttributeError)
  | Queue n => Queue_put n event
  | BroadcastQueue qs => put_all put qs event
  end.

(** The view handed to a condition wraps the reference of the event. *)
Record DefaultDictProxy := Proxy { d : nat }.

(** A condition is any callable of the view; its result is taken for its
    truth value. *)
Definition condition : Type := DefaultDictProxy -> M value.

(** A stage with the attributes [flow.py] reads and writes.  [Fanin]
    never assigns an input.  The branches of [Switch] and [If] are
    [Sequence]s. *)
Inductive stage :=
| SimpleStage (name : string) (input output : queue)
| Sequence (stages : list stage) (input output : queue)
| Fanin (stages : list stage) (output : queue)
| Fanout (stages : list stage) (input output : queue)
| Switch (cases : list (condition * stage)) (input output : queue)
| If (cond : condition) (branch : stage) (input output : queue).

Definition input_of (s : stage) : queue :=
  match s with
  | SimpleStage _ i _ | Sequence _ i _ | Fanout _ i _ | Switch _ i _ | If _ _ i _ => i
  | Fanin _ _ => NoQueue
  end.

Definition output_of (s : stage) : queue :=
  match s with
  | SimpleStage _ _ o | Sequence _ _ o | Fanin _ o | Fanout _ _ o
  | Switch _ _ o | If _ _ _ o => o
  end.

(** Modelled from the spec: [SimpleStage.setup] of logcabin/common.py, which
    is not among the sources; it allocates this stage's input queue,
    records the output queue and returns the input queue, and repeated
    calls return the same queue.  [next] numbers the queues allocated. *)
Definition SimpleStage_setup (input : queue) (next : nat) : queue * nat :=
  match input with
  | NoQueue => (Queue next, S next)
  | _ => (input, next)
  end.

Section Children.
Variable setup : stage -> queue -> nat -> queue * stage * nat.

(** [for s in reversed(stages): q = s.setup(q)]: the last child first. *)
Fixpoint setup_reversed (stages : list stage) (q : queue) (next : nat)
  : queue * list stage * nat :=
  match stages with
  | [] => (q, [], next)
  | s :: rest =>
    let '(q1, rest', n1) := setup_reversed rest q next in
    let '(q2, s', n2) := setup s q1 n1 in
    (q2, s' :: rest', n2)
  end.

(** [for s in stages: queues.append(s.setup(q))]. *)
Fixpoint setup_each (stages : list stage) (q : queue) (next : nat)
  : list queue * list stage * nat :=
  match stages with
  | [] => ([], [], next)
  | s :: rest =>
    let '(r, s', n1) := setup s q next in
    let '(rs, rest', n2) := setup_each rest q n1 in
    (r :: rs, s' :: rest', n2)
  end.

(** [for t, br in self.cases: br.setup(q)]. *)
Fixpoint setup_cases (cases : list (condition * stage)) (q : queue) (next : nat)
  : list (condition * stage) * nat :=
  match cases with
  | [] => ([], next)
  | (t, br) :: rest =>
    let '(_, br', n1) := setup br q next in
    let '(rest', n2) := setup_cases rest q n1 in
    ((t, br') :: rest', n2)
  end.
End Children.

(** [setup(q)] of each stage: the value returned ([NoQueue] where the
    method has no [return]), the stage afterwards, and the next free queue
    number. *)
Fixpoint setup (s : stage) (q : queue) (next : nat) {struct s}
  : queue * stage * nat :=
  match s with
  | SimpleStage name input _ =>
    let '(i, n) := SimpleStage_setup input next in
    (i, SimpleStage name i q, n)
  | Sequence stages _ _ =>
    let '(q', stages', n) := setup_reversed setup stages q next in
    (NoQueue, Sequence stages' q' q, n)
  | Fanin stages _ =>
    let '(_, stages', n) := setup_each setup stages q next in
    (NoQueue, Fanin stages' q, n)
  | Fanout stages _ _ =>
    let '(qs, stages', n) := setup_each setup stages q next in
    (BroadcastQueue qs, Fanout stages' (BroadcastQueue qs) q, n)
  | Switch cases input _ =>
    let '(cases', n) := setup_cases setup cases q next in
    let '(i, n') := SimpleStage_setup input n in
    (i, Switch cases' i q, n')
  | If c branch input _ =>
    let '(_, branch', n) := setup branch q next in
    let '(i, n') := SimpleStage_setup input n in
    (i, If c branch' i q, n')
  end.

(** ** [Switch] and [If]: configuration *)

(** The argument of [case(...)] and of [If(...)]: a callable or a string of
    Python code. *)
Inductive condition_arg :=
| Callable (f : condition)
| Source (source : string).

(** [lambda ev: eval(code, {}, ev)]. *)
Definition eval_condition (c : code) : condition :=
  fun ev => fun st => (eval c (event_at st (d ev)), st).

(** [if isinstance(condition, str): ...] at the head of [Switch.__call__]
    and of [If.__init__]. *)
Definition compile_condition (c : condition_arg) : result condition :=
  match c with
  | Callable f => Ok f
  | Source source => c <- compile source ;; Ok (eval_condition c)
  end.

(** [Switch.__call__]: a new [Sequence] is appended to [self.cases] with
    the condition; the stages created inside the [with] block, [body],
    become its children. *)
Definition Switch___call__ (cases : list (condition * stage))
    (cond : condition_arg) (body : list stage) : result (list (condition * stage)) :=
  c <- compile_condition cond ;;
  Ok (cases ++ [(c, Sequence body NoQueue NoQueue)]).

(** [lambda x: True]. *)
Definition always : condition := fun _ => mret (VBool true).

(** [Switch.default]: [self(lambda x: True)]. *)
Definition Switch_default (cases : list (condition * stage)) (body : list stage)
  : result (list (condition * stage)) :=
  Switch___call__ cases (Callable always) body.

(** The blocks written inside [with Switch() as case:], in textual order. *)
Inductive clause :=
| Case (cond : condition_arg) (body : list stage)
| Default (body : list stage).

Fixpoint Switch_clauses (cases : list (condition * stage)) (cl : list clause)
  : result (list (condition * stage)) :=
  match cl with
  | [] => Ok cases
  | Case cond body :: cl' =>
    cases' <- Switch___call__ cases cond body ;; Switch_clauses cases' cl'
  | Default body :: cl' =>
    cases' <- Switch_default cases body ;; Switch_clauses cases' cl'
  end.

(** [Switch()] followed by its clauses. *)
Definition Switch_build (cl : list clause) : result stage :=
  cases <- Switch_clauses [] cl ;; Ok (Switch cases NoQueue NoQueue).

(** [If(condition)] followed by its block. *)
Definition If_build (cond : condition_arg) (body : list stage) : result stage :=
  c <- compile_condition cond ;;
  Ok (If c (Sequence body NoQueue NoQueue) NoQueue NoQueue).

Definition is_Default (c : clause) : bool :=
  match c with Default _ => true | Case _ _ => false end.

(** A default clause that is followed by another clause. *)
Fixpoint default_not_last (cl : list clause) : bool :=
  match cl with
  | [] => false
  | c :: cl' =>
    (is_Default c && match cl' with [] => false | _ => true end)
    || default_not_last cl'
  end.

(** ** [Switch.process] and [If.process] *)

Fixpoint Switch_process (cases : list (condition * stage)) (event : nat) : M bool :=
  match cases with
  | [] => mret true
  | (case, br) :: rest =>
    do v <- case (Proxy event) ;
    if truthy v
    then do _ <- put (input_of br) event ; mret false
    else Switch_process rest event
  end.

Definition If_process (cond : condition) (branch : stage) (event : nat) : M bool :=
  do v <- cond (Proxy event) ;
  if truthy v
  then do _ <- put (input_of branch) event ; mret false
  else mret true.

(** Every case of [cases] is evaluated in order on the view of [event] and
    yields a false value, taking the state from [st] to [st']. *)
Inductive falls_through (event : nat)
  : list (condition * stage) -> state -> state -> Prop :=
| falls_nil st : falls_through event [] st st
| falls_cons c br rest st st1 st2 v :
    c (Proxy event) st = (Ok v, st1) ->
    truthy v = false ->
    falls_through event rest st1 st2 ->
    falls_through event ((c, br) :: rest) st st2.

(** A condition that has no effect on the state. *)
Definition read_only (c : condition) : Prop :=
  forall ev st, (c ev st).2 = st.

(** ** Conditions written as lambdas *)

Definition int_of_bool (b : bool) : Z := if b then 1%Z else 0%Z.

(** [a == b] on values; [bool] is a subclass of [int]. *)
Fixpoint py_eq (a b : value) {struct a} : bool :=
  match a, b with
  | VNone, VNone => true
  | VBool x, VBool y => Bool.eqb x y
  | VBool x, VInt y => Z.eqb (int_of_bool x) y
  | VInt x, VBool y => Z.eqb x (int_of_bool y)
  | VInt x, VInt y => Z.eqb x y
  | VStr x, VStr y => String.eqb x y
  | VList x, VList y =>
    (fix all2 (x y : list value) : bool :=
       match x, y with
       | [], [] => true
       | u :: x', v :: y' => py_eq u v && all2 x' y'
       | _, _ => false
       end) x y
  | VDatetime x, VDatetime y =>
    N.eqb (year x) (year y) && N.eqb (month x) (month y)
    && N.eqb (day x) (day y) && N.eqb (hour x) (hour y)
    && N.eqb (minute x) (minute y) && N.eqb (second x) (second y)
    && N.eqb (microsecond x) (microsecond y)
  | VAttr x, VAttr y => String.eqb x y
  | _, _ => false
  end.

(** [lambda ev: ev.k == v]. *)
Definition field_equals (k : string) (v : value) : condition :=
  fun ev => fun st =>
    (x <- view_attribute (event_at st (d ev)) k ;;
     Ok (VBool (py_eq x v)), st).

(** Calling with one argument the object [f] that the view of the event at
    [self] returned: the bound method [add_tag] runs [Event.add_tag] on
    that event and returns [None]. *)
Definition call_bound (f : value) (arg : value) (self : nat) : M value :=
  match f with
  | VAttr k =>
    if String.eqb k "add_tag" then
      fun st =>
        match add_tag (event_at st self) arg with
        | Ok e' => (Ok VNone, State (<[self := e']> (heap st)) (queues st))
        | Raise x => (Raise x, st)
        | Unmodelled => (Unmodelled, st)
        end
    else lift Unmodelled
  | _ => lift (Raise TypeError)
  end.

(** [lambda ev: ev.add_tag(tag)]. *)
Definition tagging (tag : string) : condition :=
  fun ev =>
    do f <- (fun st => (DefaultDictProxy___getattr__ (event_at st (d ev)) "add_tag", st)) ;
    call_bound f (VStr tag) (d ev).

(** An event as [Event()] creates it at 2013-01-01 02:34:56.789012. *)
Definition sample_now : datetime := Datetime 2013 1 1 2 34 56 789012.
Definition sample_event : Event := Event_init sample_now [("field", VStr "x")].

(** The stored value of the field [k] has no influence on what the view
    returns for [k]. *)
Definition shadowed (k : string) : Prop :=
  forall (e : Event) (v : value),
    DefaultDictProxy___getitem__ (<[k := v]> e) k =
    DefaultDictProxy___getitem__ (delete k e) k.

(** A heap with the sample event at reference 0 and no queue filled. *)
Definition sample_state : state := State {[0 := sample_event]} ∅.

(** A condition that holds of every event, and one that holds of none. *)
Definition always_true (c : condition) : Prop :=
  forall ev st, exists v, (c ev st).1 = Ok v /\ truthy v = true.
Definition always_false (c : condition) : Prop :=
  forall ev st, exists v, (c ev st).1 = Ok v /\ truthy v = false.

(** What a clause of the configuration becomes in [self.cases]. *)
Definition clause_case (c : clause) (cb : condition * stage) : Prop :=
  match c with
  | Default body => cb = (always, Sequence body NoQueue NoQueue)
  | Case cond body =>
    exists f, compile_condition cond = Ok f /\ cb = (f, Sequence body NoQueue NoQueue)
  end.

(** The condition of the clause is a callable or a string that compiles. *)
Definition clause_compiles (c : clause) : Prop :=
  match c with
  | Default _ => True
  | Case cond _ => is_Ok (compile_condition cond) = true
  end.

(** A configuration with the default clause first:
    [with case.default: Regex()] and then
    [with case(lambda ev: ev.kind == 'A'): Json()]. *)
Definition default_first : list clause :=
  [Default [SimpleStage "Regex" NoQueue NoQueue];
   Case (Callable (field_equals "kind" (VStr "A"))) [SimpleStage "Json" NoQueue NoQueue]].

(** The cases of a Switch after [setup]: [lambda ev: ev.kind == 'A'] leads
    to a branch fed by queue 1, [lambda ev: ev.kind == 'B'] to one fed by
    queue 2. *)
Definition case_A : condition * stage :=
  (field_equals "kind" (VStr "A"),
   Sequence [SimpleStage "Json" (Queue 1) (Queue 0)] (Queue 1) (Queue 0)).
Definition case_B : condition * stage :=
  (field_equals "kind" (VStr "B"),
   Sequence [SimpleStage "Mutate" (Queue 2) (Queue 0)] (Queue 2) (Queue 0)).

(** A heap whose reference 0 is an event of kind B. *)
Definition state_B : state :=
  State {[0 := Event_init sample_now [("kind", VStr "B")]]} ∅.

(** A Switch whose only condition is [lambda ev: ev.add_tag('seen')]. *)
Definition tagging_cases : list (condition * stage) :=
  [(tagging "seen", Sequence [] (Queue 0) (Queue 0))].

(** ** Statements about [setup] *)

(** [setup(q)] records [q] as the output of the stage and returns the
    input queue of the stage. *)
Definition setup_returns_input_queue (s : stage) (q : queue) (next : nat) : Prop :=
  output_of (setup s q next).1.2 = q /\
  (setup s q next).1.1 = input_of (setup s q next).1.2 /\
  (setup s q next).1.1 <> NoQueue.

(** The stages whose [setup] ends in a [return] of the input. *)
Definition returns_input (s : stage) : bool :=
  match s with
  | Sequence _ _ _ | Fanin _ _ => false
  | _ => true
  end.

(** [with Fanin(): Udp(); Zeromq()]. *)
Definition fanin_inputs : stage :=
  Fanin [SimpleStage "Udp" NoQueue NoQueue; SimpleStage "Zeromq" NoQueue NoQueue] NoQueue.

(** A Sequence whose first child is a Sequence, and one whose last child
    is a Sequence. *)
Definition nested_first : stage :=
  Sequence [Sequence [SimpleStage "A" NoQueue NoQueue] NoQueue NoQueue;
            SimpleStage "B" NoQueue NoQueue] NoQueue NoQueue.
Definition nested_last : stage :=
  Sequence [SimpleStage "A" NoQueue NoQueue;
            Sequence [SimpleStage "B" NoQueue NoQueue] NoQueue NoQueue]
           NoQueue NoQueue.

(** [with Sequence(): Json(); Mutate(); Regex()]. *)
Definition three_filters : list stage :=
  [SimpleStage "Json" NoQueue NoQueue; SimpleStage "Mutate" NoQueue NoQueue;
   SimpleStage "Regex" NoQueue NoQueue].

(** ** Statements about [Event.format] *)

Definition text_of (v : value) : string :=
  match py_str v with Ok s => s | _ => "" end.

(** The text a template stands for, chunk by chunk: a name the event has
    is replaced by the text of its value, a name it lacks by the empty
    string, a position by the text of that argument. *)
Fixpoint render (e : Event) (args : option (list value)) (cs : list chunk) : string :=
  match cs with
  | [] => ""
  | Text s :: cs' => s +:+ render e args cs'
  | Named k :: cs' =>
    match e !! k with Some v => text_of v | None => "" end +:+ render e args cs'
  | Positional i :: cs' =>
    match args ≫= (fun l => l !! i) with Some v => text_of v | None => "" end
    +:+ render e args cs'
  | _ :: cs' => render e args cs'
  end.

(** The chunk is text or a plain field; a position is within [args]; the
    value a field refers to has a text in the fragment of [py_str]. *)
Definition resolves (e : Event) (args : option (list value)) (c : chunk) : Prop :=
  match c with
  | Text _ => True
  | Named k => forall v, e !! k = Some v -> is_Ok (py_str v) = true
  | Positional i =>
    exists l v, args = Some l /\ l !! i = Some v /\ is_Ok (py_str v) = true
  | Malformed | Beyond => False
  end.

(** ** Statements about [Event.to_json] *)

(** The two shapes of a timestamp: with and without the fraction. *)
Definition iso8601_seconds (t : datetime) : string :=
  isoformat_date t +:+ "T" +:+ isoformat_time t.
Definition iso8601_micro (t : datetime) : string :=
  isoformat_date t +:+ "T" +:+ isoformat_time t +:+ "." +:+ zero_pad 6 (microsecond t).

(** The member [timestamp] of the JSON object, given its text. *)
Definition json_timestamp (text : string) : string :=
  quote +:+ "timestamp" +:+ quote +:+ ": " +:+ quote +:+ text +:+ quote.

(** Every item of the event can be encoded. *)
Definition encodable (e : Event) : Prop :=
  forall kv, kv ∈ map_to_list e -> is_Ok (encode_item kv) = true.

Definition encodableb (e : Event) : bool :=
  forallb (fun kv => is_Ok (encode_item kv)) (map_to_list e).

(** A character [encode_basestring_ascii] leaves as it is. *)
Definition plain_char (c : ascii) : bool :=
  let n := nat_of_ascii c in
  (32 <=? n) && (n <? 127) && negb (n =? 34) && negb (n =? 92).

Fixpoint all_plain (s : string) : bool :=
  match s with
  | "" => true
  | String c s' => plain_char c && all_plain s'
  end.

(** The number a string of decimal digits denotes. *)
Fixpoint number_from (acc : N) (s : string) : N :=
  match s with
  | "" => acc
  | String c s' => number_from (10 * acc + (N_of_ascii c - 48)) s'
  end.

(** The digits written for each field denote the field. *)
Definition fields_read_back (t : datetime) : Prop :=
  number_from 0 (zero_pad 4 (year t)) = year t /\
  number_from 0 (zero_pad 2 (month t)) = month t /\
  number_from 0 (zero_pad 2 (day t)) = day t /\
  number_from 0 (zero_pad 2 (hour t)) = hour t /\
  number_from 0 (zero_pad 2 (minute t)) = minute t /\
  number_from 0 (zero_pad 2 (second t)) = second t /\
  number_from 0 (zero_pad 6 (microsecond t)) = microsecond t.

(** An event created on a whole second, 2013-01-01 02:34:56. *)
Definition whole_second : datetime := Datetime 2013 1 1 2 34 56 0.
Definition whole_second_event : Event := Event_init whole_second [].

(** One step of the loop [for s in reversed(self.stages): q = s.setup(q)]. *)
Definition setup_step (f : stage -> queue -> nat -> queue * stage * nat)
    (acc : queue * list stage * nat) (s : stage) : queue * list stage * nat :=
  let '(q, done, n) := acc in
  let '(q', s', n') := f s q n in
  (q', s' :: done, n').

(** A heap whose reference 0 is an event of kind C. *)
Definition state_C : state :=
  State {[0 := Event_init sample_now [("kind", VStr "C")]]} ∅.

(** [with Switch() as case:] with the two cases
    [with case(lambda ev: ev.kind == 'A'): Json()] and
    [with case(lambda ev: ev.kind == 'B'): Mutate()]. *)
Definition kind_switch : list clause :=
  [Case (Callable (field_equals "kind" (VStr "A"))) [SimpleStage "Json" NoQueue NoQueue];
   Case (Callable (field_equals "kind" (VStr "B"))) [SimpleStage "Mutate" NoQueue NoQueue]].

(** ** Statements about tags and the constructor *)

(** The tags of an event as a list: empty when the field is unset, nothing
    when the field holds something that is not a list. *)
Definition tag_list (e : Event) : option (list value) :=
  match e !! "tags" with
  | None => Some []
  | Some (VList l) => Some l
  | Some _ => None
  end.

(** [for v in vs: ev.add_tag(v)]. *)
Fixpoint add_tags (e : Event) (vs : list value) : result Event :=
  match vs with
  | [] => Ok e
  | v :: vs' => e' <- add_tag e v ;; add_tags e' vs'
  end.

(** ** Statements about templates *)

(** A text made into a template: every brace is doubled. *)
Fixpoint escape_braces (s : string) : string :=
  match s with
  | "" => ""
  | String c s' =>
    if Ascii.eqb c "{" || Ascii.eqb c "}"
    then String c (String c (escape_braces s'))
    else String c (escape_braces s')
  end.

Definition is_Text (c : chunk) : bool :=
  match c with Text _ => true | _ => false end.

(** ** Statements about the shape of a graph *)

(** A stage with every input and output forgotten: what configuration
    built, before any wiring. *)
Fixpoint erase (s : stage) : stage :=
  match s with
  | SimpleStage name _ _ => SimpleStage name NoQueue NoQueue
  | Sequence stages _ _ => Sequence (map erase stages) NoQueue NoQueue
  | Fanin stages _ => Fanin (map erase stages) NoQueue
  | Fanout stages _ _ => Fanout (map erase stages) NoQueue NoQueue
  | Switch cases _ _ =>
    Switch (map (fun cb => (cb.1, erase cb.2)) cases) NoQueue NoQueue
  | If c branch _ _ => If c (erase branch) NoQueue NoQueue
  end.

(** [with Fanout(): Log(); Elasticsearch()]. *)
Definition fanout_sinks : stage :=
  Fanout [SimpleStage "Log" NoQueue NoQueue;
          SimpleStage "Elasticsearch" NoQueue NoQueue] NoQueue NoQueue.

(** ** Statements about routing *)

(** [process] returned true: the event goes on to the output. *)
Definition passes_through (r : result bool) : bool :=
  match r with Ok true => true | _ => false end.

(** A heap whose reference 0 is an event with a field [tags] that is a
    string. *)
Definition state_bad_tags : state :=
  State {[0 := Event_init sample_now [("tags", VStr "x")]]} ∅.

(** The cases of a Switch whose branch begins with a nested Sequence,
    after [setup]: the branch has no input. *)
Definition nested_branch_cases : list (condition * stage) :=
  [(always, (setup nested_first (Queue 0) 1).1.2)].

(** ** Statements about JSON texts *)

(** The strings of [l] with [sep] between them: [sep.join(l)]. *)
Fixpoint join (sep : string) (l : list string) : string :=
  match l with
  | [] => ""
  | [x] => x
  | x :: l' => x +:+ sep +:+ join sep l'
  end.

(** The member [tags] of the JSON object, given the texts of its elements. *)
Definition json_tags (elements : list string) : string :=
  quote +:+ "tags" +:+ quote +:+ ": " +:+ "[" +:+ join ", " elements +:+ "]".

(** * Properties *)

(** ** Attribute access on events and the view of conditions *)

Ltac unfold_getattr :=
  unfold DefaultDictProxy___getattr__, DefaultDictProxy___getitem__, hasattr,
    getattr, object___getattribute__, Event___getattr__, Event_tags,
    dict_get, dict_get_default in *.

Lemma getattr_total (e : Event) (k : string) : exists v, getattr e k = Ok v.
Proof.
  unfold_getattr.
  destruct (String.eqb k "tags"); [eauto |].
  destruct (class_attribute k); eauto.
Qed.

Lemma hasattr_true (e : Event) (k : string) : hasattr e k = true.
Proof.
  unfold hasattr. destruct (getattr_total e k) as [v ->]. reflexivity.
Qed.

Lemma class_attribute_None (k : string) :
  k ∉ Event_attributes -> String.eqb k "tags" = false /\ class_attribute k = None.
Proof.
  intros Hk. split.
  - apply String.eqb_neq. intros ->. apply Hk. unfold Event_attributes. left.
  - unfold class_attribute. rewrite bool_decide_eq_false_2; [reflexivity |].
    intros Hin. apply Hk. unfold Event_attributes. right. exact Hin.
Qed.

Lemma class_attribute_Some (k : string) :
  k ∈ class_attributes ->
  String.eqb k "tags" = false /\ exists v, class_attribute k = Some v.
Proof.
  intros Hk. split.
  - apply String.eqb_neq. intros ->. revert Hk.
    apply (bool_decide_unpack _). vm_compute. exact I.
  - unfold class_attribute. rewrite bool_decide_eq_true_2 by exact Hk. eauto.
Qed.

Lemma getattr_class_attribute (e : Event) (k : string) :
  k ∈ class_attributes -> exists v, class_attribute k = Some v /\ getattr e k = Ok v.
Proof.
  intros Hk. destruct (class_attribute_Some k Hk) as [Ht [v Hv]].
  exists v. split; [exact Hv |].
  unfold getattr, object___getattribute__. rewrite Ht, Hv. reflexivity.
Qed.

Lemma getattr_tags (e : Event) :
  getattr e "tags" = Ok (default (VList []) (e !! "tags")).
Proof. reflexivity. Qed.

Lemma getattr_field (e : Event) (k : string) :
  k ∉ Event_attributes -> getattr e k = Ok (dict_get e k).
Proof.
  intros Hk. destruct (class_attribute_None k Hk) as [Ht Hc].
  unfold getattr, object___getattribute__. rewrite Ht, Hc. reflexivity.
Qed.

Lemma proxy_getitem_getattr (e : Event) (k : string) :
  DefaultDictProxy___getitem__ e k = getattr e k.
Proof.
  unfold DefaultDictProxy___getitem__. rewrite hasattr_true. reflexivity.
Qed.

(** C4, as the specification words it, fails: on an event without a field
    [to_json], the attribute [to_json] is the method of the class, not
    [None]. *)
Lemma Event_getattr_missing_counterexample :
  sample_event !! "to_json" = None /\
  getattr sample_event "to_json" = Ok (VAttr "to_json") /\
  getattr sample_event "to_json" <> Ok VNone.
Proof.
  split; [| split].
  - vm_compute. reflexivity.
  - vm_compute. reflexivity.
  - vm_compute. discriminate.
Qed.

(** C4 (amended): attribute access on an event never fails; for a name [k]
    that is not a field of the event and not an attribute of the class
    [Event] (the property [tags], its methods and what it inherits from
    [dict]) it yields [None]; and [tags] yields the empty list when the
    field [tags] is unset. *)
Theorem Event_getattr_missing (e : Event) (k : string) :
  e !! k = None ->
  (exists v, getattr e k = Ok v) /\
  (k ∉ Event_attributes -> getattr e k = Ok VNone) /\
  (k = "tags" -> getattr e k = Ok (VList [])).
Proof.
  intros Hmiss. split; [apply getattr_total | split].
  - intros Hk. rewrite (getattr_field e k Hk). unfold dict_get.
    rewrite Hmiss. reflexivity.
  - intros ->. rewrite getattr_tags, Hmiss. reflexivity.
Qed.

(** On the sample event: a name that is no field and no class attribute, and
    the unset [tags]. *)
Lemma Event_getattr_missing_witness :
  getattr sample_event "missing" = Ok VNone /\
  getattr sample_event "tags" = Ok (VList []).
Proof.
  split.
  - refine (proj1 (proj2 (Event_getattr_missing sample_event "missing" _)) _).
    + vm_compute. reflexivity.
    + apply (bool_decide_unpack _). vm_compute. exact I.
  - refine (proj2 (proj2 (Event_getattr_missing sample_event "tags" _)) _).
    + vm_compute. reflexivity.
    + reflexivity.
Defined.

(** C10, as worded, fails for [tags]: the property returns the stored
    value, so a stored [tags] is what a condition sees. *)
Lemma view_shadowing_counterexample :
  DefaultDictProxy___getitem__ (<["tags" := VList [VStr "a"]]> sample_event) "tags"
    = Ok (VList [VStr "a"]) /\
  DefaultDictProxy___getitem__ (delete "tags" sample_event) "tags" = Ok (VList []) /\
  ~ shadowed "tags".
Proof.
  assert (H1 : DefaultDictProxy___getitem__
                 (<["tags" := VList [VStr "a"]]> sample_event) "tags"
               = Ok (VList [VStr "a"])) by (vm_compute; reflexivity).
  assert (H2 : DefaultDictProxy___getitem__ (delete "tags" sample_event) "tags"
               = Ok (VList [])) by (vm_compute; reflexivity).
  split; [exact H1 | split; [exact H2 |]].
  intros Hs. specialize (Hs sample_event (VList [VStr "a"])).
  rewrite H1, H2 in Hs. discriminate.
Qed.

(** C10 (amended): on an event the view is attribute access, [d[k]] equals
    [e.k] for every name, because [hasattr] is always true and the fallback
    to [d.get(k)] is never taken; a field whose name is a method or another
    class attribute of [Event] ([get], [keys], [items], ...) is shadowed,
    its stored value has no influence on what conditions see; the
    property [tags] returns the stored [tags] when there is one and the
    empty list otherwise. *)
Theorem view_is_attribute_access (e : Event) (k : string) :
  DefaultDictProxy___getitem__ e k = getattr e k /\
  DefaultDictProxy___getattr__ e k = getattr e k /\
  hasattr e k = true /\
  (k ∈ class_attributes -> shadowed k) /\
  DefaultDictProxy___getitem__ e "tags" = Ok (default (VList []) (e !! "tags")).
Proof.
  split; [apply proxy_getitem_getattr |].
  split; [apply proxy_getitem_getattr |].
  split; [apply hasattr_true |].
  split.
  - intros Hk e' v. rewrite !proxy_getitem_getattr.
    destruct (getattr_class_attribute (<[k := v]> e') k Hk) as [a [Ha ->]].
    destruct (getattr_class_attribute (delete k e') k Hk) as [b [Hb ->]].
    congruence.
  - rewrite proxy_getitem_getattr. apply getattr_tags.
Qed.

(** A field named [get] is not seen through the view. *)
Lemma view_is_attribute_access_witness :
  DefaultDictProxy___getitem__ (<["get" := VInt 1]> sample_event) "get"
  = DefaultDictProxy___getitem__ (delete "get" sample_event) "get".
Proof.
  refine (proj1 (proj2 (proj2 (proj2
    (view_is_attribute_access sample_event "get")))) _ sample_event (VInt 1)).
  apply (bool_decide_unpack _). vm_compute. exact I.
Defined.

(** ** Condition strings *)

Lemma eval_name (id : string) (e : Event) :
  eval (LoadName id) e = getattr e id.
Proof.
  unfold eval. rewrite proxy_getitem_getattr.
  destruct (getattr_total e id) as [v ->]. reflexivity.
Qed.

(** C8, as worded, fails: the string [true] compiles to a name, which the
    view of an event without such a field resolves to [None]; and the
    string [false] is true of an event that has a non-zero field [false]. *)
Lemma boolean_literals_counterexample :
  compile_condition (Source "true") = Ok (eval_condition (LoadName "true")) /\
  eval_condition (LoadName "true") (Proxy 0) sample_state = (Ok VNone, sample_state) /\
  ~ always_true (eval_condition (LoadName "true")) /\
  compile_condition (Source "false") = Ok (eval_condition (LoadName "false")) /\
  ~ always_false (eval_condition (LoadName "false")).
Proof.
  split; [reflexivity |]. split; [vm_compute; reflexivity |].
  split; [| split; [reflexivity |]].
  - intros H. destruct (H (Proxy 0) sample_state) as [v [Hv Ht]].
    vm_compute in Hv. injection Hv as <-. discriminate Ht.
  - intros H.
    destruct (H (Proxy 0) (State {[0 := <["false" := VInt 1]> sample_event]} ∅))
      as [v [Hv Ht]].
    vm_compute in Hv. injection Hv as <-. discriminate Ht.
Qed.

(** C8 (amended): the condition strings [true] and [false] are not boolean
    literals but names: the compiled predicate looks the name up on the
    view and yields the value of the event's field of that name, [None]
    (false) when the event has no such field. *)
Theorem boolean_words_are_names (w : string) :
  w = "true" \/ w = "false" ->
  compile_condition (Source w) = Ok (eval_condition (LoadName w)) /\
  forall ev st,
    eval_condition (LoadName w) ev st = (Ok (dict_get (event_at st (d ev)) w), st).
Proof.
  intros Hw. split.
  - destruct Hw as [-> | ->]; reflexivity.
  - intros ev st. unfold eval_condition. rewrite eval_name, getattr_field.
    + reflexivity.
    + apply (bool_decide_unpack _). destruct Hw as [-> | ->]; vm_compute; exact I.
Qed.

(** The condition string [true]. *)
Lemma boolean_words_are_names_witness :
  compile_condition (Source "true") = Ok (eval_condition (LoadName "true")) /\
  forall ev st,
    eval_condition (LoadName "true") ev st
    = (Ok (dict_get (event_at st (d ev)) "true"), st).
Proof.
  apply (boolean_words_are_names "true"). left. reflexivity.
Defined.

(** ** Configuration of a [Switch] *)

Lemma Switch_clauses_spec (cl : list clause) :
  Forall clause_compiles cl ->
  forall cases, exists new,
    Switch_clauses cases cl = Ok (cases ++ new) /\ Forall2 clause_case cl new.
Proof.
  induction 1 as [| c cl Hc _ IH]; intros cases.
  - exists []. rewrite app_nil_r. split; [reflexivity | constructor].
  - destruct c as [cond body | body]; simpl in *.
    + unfold Switch___call__.
      destruct (compile_condition cond) as [f | |] eqn:Hf; try discriminate Hc.
      simpl.
      destruct (IH (cases ++ [(f, Sequence body NoQueue NoQueue)])) as [new [-> Hnew]].
      exists ((f, Sequence body NoQueue NoQueue) :: new).
      rewrite <- app_assoc. split; [reflexivity |].
      constructor; [| exact Hnew]. exists f. split; [exact Hf | reflexivity].
    + destruct (IH (cases ++ [(always, Sequence body NoQueue NoQueue)]))
        as [new [-> Hnew]].
      exists ((always, Sequence body NoQueue NoQueue) :: new).
      rewrite <- app_assoc. split; [reflexivity |].
      constructor; [reflexivity | exact Hnew].
Qed.

Lemma Switch_process_after_always pre br post event st :
  Switch_process (pre ++ (always, br) :: post) event st
  = Switch_process (pre ++ [(always, br)]) event st.
Proof.
  revert st. induction pre as [| [c b] pre IH]; intros st.
  - reflexivity.
  - simpl. unfold mbind.
    destruct (c (Proxy event) st) as [[v | x |] st']; try reflexivity.
    destruct (truthy v); [reflexivity | apply IH].
Qed.

(** C7, as worded, fails: a configuration whose default clause comes first
    is built without any error. *)
Lemma default_not_last_counterexample :
  default_not_last default_first = true /\
  is_Ok (Switch_build default_first) = true /\
  Switch_build default_first <> Raise ConfigurationError.
Proof.
  split; [reflexivity |]. split; [reflexivity |]. discriminate.
Qed.

(** C7 (amended): a Switch configuration is accepted wherever its default
    clause stands: every clause, in textual order, becomes one case, the
    default clause an ordinary case at its position whose condition is
    always true; the cases registered after it are never reached by
    [process]. *)
Theorem Switch_build_accepts_any_order (cl : list clause) :
  Forall clause_compiles cl ->
  (exists cases,
     Switch_build cl = Ok (Switch cases NoQueue NoQueue) /\
     Forall2 clause_case cl cases) /\
  (forall pre br post event st,
     Switch_process (pre ++ (always, br) :: post) event st
     = Switch_process (pre ++ [(always, br)]) event st).
Proof.
  intros Hcl. split.
  - destruct (Switch_clauses_spec cl Hcl []) as [new [Hnew Hall]].
    exists new. unfold Switch_build. rewrite Hnew. split; [reflexivity | exact Hall].
  - intros. apply Switch_process_after_always.
Qed.

(** The configuration with the default clause first is built. *)
Lemma Switch_build_accepts_any_order_witness :
  exists cases,
    Switch_build default_first = Ok (Switch cases NoQueue NoQueue) /\
    Forall2 clause_case default_first cases.
Proof.
  apply (Switch_build_accepts_any_order default_first).
  repeat constructor.
Defined.

(** ** Routing: [Switch.process] and [If.process] *)

Lemma queue_ind' (P : queue -> Prop) :
  P NoQueue ->
  (forall n, P (Queue n)) ->
  (forall qs, Forall P qs -> P (BroadcastQueue qs)) ->
  forall q, P q.
Proof.
  intros H0 H1 H2. fix IH 1. intros [| n | qs].
  - exact H0.
  - apply H1.
  - apply H2. revert qs. fix IHqs 1. intros [| q qs].
    + constructor.
    + constructor; [apply IH | apply IHqs].
Qed.

Lemma put_heap (q : queue) (event : nat) (st : state) :
  heap (put q event st).2 = heap st.
Proof.
  revert st. induction q as [| n | qs IH] using queue_ind'; intros st.
  - reflexivity.
  - reflexivity.
  - simpl. revert st. induction IH as [| q qs Hq _ IHqs]; intros st.
    + reflexivity.
    + simpl. unfold mbind. specialize (Hq st).
      destruct (put q event st) as [[[] | x |] st']; simpl in *.
      * rewrite IHqs. exact Hq.
      * exact Hq.
      * exact Hq.
Qed.

Lemma Switch_process_falls_through event pre rest st st1 :
  falls_through event pre st st1 ->
  Switch_process (pre ++ rest) event st = Switch_process rest event st1.
Proof.
  induction 1 as [st | c br pre st st1 st2 v Hc Hv _ IH].
  - reflexivity.
  - simpl. unfold mbind. rewrite Hc, Hv. exact IH.
Qed.

(** C1: [Switch.process] evaluates the conditions in order on the view of
    the event; at the first one that yields a true value it puts the event
    on the input of that branch and returns false; when every condition
    yields a false value it returns true and puts the event nowhere.
    [If.process] puts the event on the input of its branch and returns
    false when the condition holds, and returns true when it does not.
    Putting on a queue appends the event to it. *)
Theorem Switch_routes_first_match (event : nat) :
  (forall pre c br post st st1 st2 st3 v,
     falls_through event pre st st1 ->
     c (Proxy event) st1 = (Ok v, st2) ->
     truthy v = true ->
     put (input_of br) event st2 = (Ok tt, st3) ->
     Switch_process (pre ++ (c, br) :: post) event st = (Ok false, st3)) /\
  (forall cases st st',
     falls_through event cases st st' ->
     Switch_process cases event st = (Ok true, st')) /\
  (forall c branch st st1 st2 v,
     c (Proxy event) st = (Ok v, st1) ->
     truthy v = true ->
     put (input_of branch) event st1 = (Ok tt, st2) ->
     If_process c branch event st = (Ok false, st2)) /\
  (forall c branch st st1 v,
     c (Proxy event) st = (Ok v, st1) ->
     truthy v = false ->
     If_process c branch event st = (Ok true, st1)) /\
  (forall n st, put (Queue n) event st = (Ok tt, enqueue n event st)).
Proof.
  repeat split.
  - intros pre c br post st st1 st2 st3 v Hpre Hc Hv Hput.
    rewrite (Switch_process_falls_through event pre _ st st1 Hpre).
    simpl. unfold mbind. rewrite Hc, Hv, Hput. reflexivity.
  - intros cases st st' Hall.
    rewrite <- (app_nil_r cases).
    rewrite (Switch_process_falls_through event cases [] st st' Hall).
    reflexivity.
  - intros c branch st st1 st2 v Hc Hv Hput.
    unfold If_process, mbind. rewrite Hc, Hv, Hput. reflexivity.
  - intros c branch st st1 v Hc Hv.
    unfold If_process, mbind. rewrite Hc, Hv. reflexivity.
Qed.

(** Scenario of the specification: with the cases kind A and kind B, an
    event of kind B is put on the queue of the second branch and an event
    of kind C passes through. *)
Lemma Switch_routes_first_match_witness :
  Switch_process ([case_A] ++ case_B :: []) 0 state_B
    = (Ok false, enqueue 2 0 state_B) /\
  Switch_process [case_A; case_B] 0 state_C = (Ok true, state_C).
Proof.
  assert (HA : falls_through 0 [case_A] state_B state_B).
  { apply (falls_cons 0 _ _ [] state_B state_B state_B (VBool false)).
    - reflexivity.
    - reflexivity.
    - constructor. }
  assert (HC : falls_through 0 [case_A; case_B] state_C state_C).
  { apply (falls_cons 0 _ _ [case_B] state_C state_C state_C (VBool false));
      [reflexivity | reflexivity |].
    apply (falls_cons 0 _ _ [] state_C state_C state_C (VBool false));
      [reflexivity | reflexivity | constructor]. }
  split.
  - apply (proj1 (Switch_routes_first_match 0)
             [case_A] _ _ [] state_B state_B state_B _ (VBool true) HA).
    + reflexivity.
    + reflexivity.
    + reflexivity.
  - apply (proj1 (proj2 (Switch_routes_first_match 0)) _ state_C state_C HC).
Defined.

(** The cases used above are what configuration and [setup] produce. *)
Lemma kind_switch_setup :
  (s <- Switch_build kind_switch ;; Ok (setup s (Queue 0) 1))
  = Ok (Queue 3, Switch [case_A; case_B] (Queue 3) (Queue 0), 4).
Proof. reflexivity. Qed.

Lemma eval_condition_read_only (c : code) : read_only (eval_condition c).
Proof. intros ev st. reflexivity. Qed.

Lemma field_equals_read_only (k : string) (v : value) : read_only (field_equals k v).
Proof. intros ev st. reflexivity. Qed.

Lemma Switch_process_heap cases event st :
  Forall (fun cb => read_only cb.1) cases ->
  heap (Switch_process cases event st).2 = heap st.
Proof.
  intros Hall. revert st. induction Hall as [| [c br] cases Hc _ IH]; intros st.
  - reflexivity.
  - simpl. unfold mbind. specialize (Hc (Proxy event) st). simpl in Hc.
    destruct (c (Proxy event) st) as [[v | x |] st1]; simpl in Hc; subst st1;
      try reflexivity.
    destruct (truthy v); [| apply IH].
    pose proof (put_heap (input_of br) event st) as Hput.
    destruct (put (input_of br) event st) as [[[] | x |] st2]; exact Hput.
Qed.

Lemma If_process_heap c branch event st :
  read_only c -> heap (If_process c branch event st).2 = heap st.
Proof.
  intros Hc. unfold If_process, mbind.
  specialize (Hc (Proxy event) st).
  destruct (c (Proxy event) st) as [[v | x |] st1]; simpl in Hc; subst st1;
    try reflexivity.
  destruct (truthy v); [| reflexivity].
  pose proof (put_heap (input_of branch) event st) as Hput.
  destruct (put (input_of branch) event st) as [[[] | x |] st2]; exact Hput.
Qed.

(** C9, as worded, fails: the view hands out the bound methods of the
    event, so the condition [lambda ev: ev.add_tag('seen')] tags the event
    while [process] passes it through. *)
Lemma routing_mutates_counterexample :
  (Switch_process tagging_cases 0 sample_state).1 = Ok true /\
  event_at sample_state 0 !! "tags" = None /\
  event_at (Switch_process tagging_cases 0 sample_state).2 0 !! "tags"
    = Some (VList [VStr "seen"]).
Proof.
  split; [| split]; vm_compute; reflexivity.
Qed.

(** C9 (amended): [process] itself never writes to an event: for every
    Switch or If whose conditions have no effect of their own (as every
    condition compiled from a string of the fragment, which only reads
    the view), [process(e)] leaves every event of the heap, [e] included,
    exactly as it was, whether [e] is put on a branch or passed through,
    and the branch receives the reference of [e] itself. *)
Theorem routing_preserves_event (event : nat) :
  (forall cases st,
     Forall (fun cb => read_only cb.1) cases ->
     heap (Switch_process cases event st).2 = heap st) /\
  (forall c branch st,
     read_only c -> heap (If_process c branch event st).2 = heap st) /\
  (forall c, read_only (eval_condition c)) /\
  (forall q st, heap (put q event st).2 = heap st) /\
  (forall n st, queues (put (Queue n) event st).2 !! n
                = Some (default [] (queues st !! n) ++ [event])).
Proof.
  split; [intros; by apply Switch_process_heap |].
  split; [intros; by apply If_process_heap |].
  split; [apply eval_condition_read_only |].
  split; [intros; apply put_heap |].
  intros n st. simpl. apply lookup_insert_eq.
Qed.

(** The two-case Switch leaves the heap as it was. *)
Lemma routing_preserves_event_witness :
  heap (Switch_process [case_A; case_B] 0 state_B).2 = heap state_B.
Proof.
  apply (proj1 (routing_preserves_event 0) [case_A; case_B] state_B).
  repeat constructor.
Defined.

(** ** Wiring: [setup] *)

Lemma SimpleStage_setup_input (input : queue) (next : nat) :
  (SimpleStage_setup input next).1 <> NoQueue.
Proof. destruct input; simpl; discriminate. Qed.

(** Repeated calls return the same queue. *)
Lemma SimpleStage_setup_idempotent (input : queue) (next : nat) :
  let '(i, n) := SimpleStage_setup input next in
  SimpleStage_setup i n = (i, n).
Proof. destruct input; reflexivity. Qed.

Lemma setup_output (s : stage) (q : queue) (next : nat) :
  output_of (setup s q next).1.2 = q.
Proof.
  destruct s as [name i o | stages i o | stages o | stages i o | cases i o | c br i o];
    simpl.
  - destruct (SimpleStage_setup i next) as [i' n]. reflexivity.
  - destruct (setup_reversed setup stages q next) as [[q' stages'] n]. reflexivity.
  - destruct (setup_each setup stages q next) as [[qs stages'] n]. reflexivity.
  - destruct (setup_each setup stages q next) as [[qs stages'] n]. reflexivity.
  - destruct (setup_cases setup cases q next) as [cases' n].
    destruct (SimpleStage_setup i n) as [i' n']. reflexivity.
  - destruct (setup br q next) as [[r br'] n].
    destruct (SimpleStage_setup i n) as [i' n']. reflexivity.
Qed.

Lemma setup_returns (s : stage) (q : queue) (next : nat) :
  returns_input s = true ->
  (setup s q next).1.1 = input_of (setup s q next).1.2 /\
  (setup s q next).1.1 <> NoQueue.
Proof.
  destruct s as [name i o | stages i o | stages o | stages i o | cases i o | c br i o];
    simpl; intros Hr; try discriminate Hr.
  - pose proof (SimpleStage_setup_input i next) as Hi.
    destruct (SimpleStage_setup i next) as [i' n]. simpl in *. auto.
  - destruct (setup_each setup stages q next) as [[qs stages'] n]. simpl.
    split; [reflexivity | discriminate].
  - destruct (setup_cases setup cases q next) as [cases' n].
    pose proof (SimpleStage_setup_input i n) as Hi.
    destruct (SimpleStage_setup i n) as [i' n']. simpl in *. auto.
  - destruct (setup br q next) as [[r br'] n].
    pose proof (SimpleStage_setup_input i n) as Hi.
    destruct (SimpleStage_setup i n) as [i' n']. simpl in *. auto.
Qed.

Lemma Fanin_setup_returns_nothing (stages : list stage) (o q : queue) (next : nat) :
  (setup (Fanin stages o) q next).1.1 = NoQueue /\
  input_of (setup (Fanin stages o) q next).1.2 = NoQueue.
Proof.
  simpl. destruct (setup_each setup stages q next) as [[qs stages'] n]. auto.
Qed.

(** The loop of [Sequence.setup] as Python runs it: one step per child of
    the reversed list, threading [q]. *)
Lemma setup_reversed_fold f (stages : list stage) (q : queue) (next : nat) :
  setup_reversed f stages q next
  = fold_left (setup_step f) (rev stages) (q, [], next).
Proof.
  induction stages as [| s stages IH]; [reflexivity |].
  simpl. rewrite fold_left_app, <- IH. simpl.
  destruct (setup_reversed f stages q next) as [[q1 rest'] n1]. reflexivity.
Qed.

(** C2, as worded, fails: [Fanin.setup] assigns no input and returns
    nothing. *)
Lemma setup_returns_input_counterexample :
  (setup fanin_inputs (Queue 0) 1).1.1 = NoQueue /\
  ~ setup_returns_input_queue fanin_inputs (Queue 0) 1.
Proof.
  split; [reflexivity |].
  intros (_ & _ & H). apply H. reflexivity.
Qed.

(** C2 (amended): for every stage, [setup(q)] records [q] as the output of
    the stage; for a simple stage, a Fanout, a Switch and an If it returns
    the input queue of the stage, which a parent composite uses as the
    output of the preceding sibling; a Fanin has no input queue and its
    [setup] returns nothing. *)
Theorem setup_records_output (s : stage) (q : queue) (next : nat) :
  output_of (setup s q next).1.2 = q /\
  match s with
  | Sequence _ _ _ => True
  | Fanin _ _ =>
    (setup s q next).1.1 = NoQueue /\ input_of (setup s q next).1.2 = NoQueue
  | _ => setup_returns_input_queue s q next
  end.
Proof.
  split; [apply setup_output |].
  destruct s as [name i o | stages i o | stages o | stages i o | cases i o | c br i o];
    try exact I; try apply Fanin_setup_returns_nothing;
    (split; [apply setup_output | apply setup_returns; reflexivity]).
Qed.

(** What [Sequence.setup] does with children whose [setup] returns their
    input: the children are set up from the last to the first, each one
    records as output the input of its successor (the last one records
    [q]), and the value left in [q] at the end, which becomes the input of
    the Sequence, is the input of the first child. *)
Lemma setup_reversed_chain (stages : list stage) (q : queue) (next : nat) :
  Forall (fun s => returns_input s = true) stages ->
  let '(q', stages', _) := setup_reversed setup stages q next in
  length stages' = length stages /\
  q' = match stages' with [] => q | s1 :: _ => input_of s1 end /\
  forall i s, stages' !! i = Some s ->
    output_of s = match stages' !! S i with Some t => input_of t | None => q end.
Proof.
  induction 1 as [| s stages Hs _ IH]; simpl.
  - repeat split. intros i s Hi. rewrite lookup_nil in Hi. discriminate.
  - destruct (setup_reversed setup stages q next) as [[q1 rest'] n1].
    destruct IH as (Hlen & Hq1 & Hchain).
    pose proof (setup_output s q1 n1) as Hout.
    pose proof (setup_returns s q1 n1 Hs) as [Hret _].
    destruct (setup s q1 n1) as [[q2 s'] n2] eqn:Hsetup. simpl in *.
    split; [congruence |]. split.
    + exact Hret.
    + intros [| i] t Ht; simpl in *.
      * injection Ht as <-. rewrite Hout, Hq1. destruct rest'; reflexivity.
      * apply Hchain. exact Ht.
Qed.

Lemma setup_three_filters :
  setup (Sequence three_filters NoQueue NoQueue) (Queue 0) 1
  = (NoQueue,
     Sequence [SimpleStage "Json" (Queue 3) (Queue 2);
               SimpleStage "Mutate" (Queue 2) (Queue 1);
               SimpleStage "Regex" (Queue 1) (Queue 0)] (Queue 3) (Queue 0),
     4).
Proof. reflexivity. Qed.

(** C3 on the code: a Sequence nested in a Sequence.  [Sequence.setup] has
    no [return], so the enclosing loop [q = s.setup(q)] receives [None]
    from the nested Sequence.  With the nested Sequence first, the input
    of the enclosing Sequence is [None] although its first child has the
    input queue 2; with the nested Sequence last, stage A is given [None]
    as output although its successor has the input queue 1. *)
Theorem Sequence_setup_nested :
  setup nested_first (Queue 0) 1
  = (NoQueue,
     Sequence [Sequence [SimpleStage "A" (Queue 2) (Queue 1)] (Queue 2) (Queue 1);
               SimpleStage "B" (Queue 1) (Queue 0)] NoQueue (Queue 0),
     3) /\
  setup nested_last (Queue 0) 1
  = (NoQueue,
     Sequence [SimpleStage "A" (Queue 2) NoQueue;
               Sequence [SimpleStage "B" (Queue 1) (Queue 0)] (Queue 1) (Queue 0)]
              (Queue 2) (Queue 0),
     3).
Proof. split; reflexivity. Qed.

(** ** [Event.format] *)

Lemma py_str_text_of (v : value) :
  is_Ok (py_str v) = true -> py_str v = Ok (text_of v).
Proof.
  unfold text_of. destruct (py_str v); simpl; [reflexivity | discriminate ..].
Qed.

Lemma DefaultFormatter_get_named (e : Event) (args : option (list value)) (k : string) :
  DefaultFormatter_get_value (inr k) args e
  = Ok (match e !! k with Some v => v | None => VStr "" end).
Proof.
  unfold DefaultFormatter_get_value, Formatter_get_value.
  destruct (e !! k); reflexivity.
Qed.

Lemma DefaultFormatter_get_positional (e : Event) (l : list value) (i : nat) (v : value) :
  l !! i = Some v -> DefaultFormatter_get_value (inl i) (Some l) e = Ok v.
Proof.
  intros Hi. unfold DefaultFormatter_get_value, Formatter_get_value.
  rewrite Hi. reflexivity.
Qed.

Lemma vformat_default (e : Event) (args : option (list value)) (cs : list chunk) :
  Forall (resolves e args) cs ->
  vformat_chunks DefaultFormatter_get_value cs args e = Ok (render e args cs).
Proof.
  induction 1 as [| c cs Hc _ IH]; [reflexivity |].
  destruct c as [s | k | i | |]; simpl in *; try contradiction.
  - rewrite IH. reflexivity.
  - rewrite DefaultFormatter_get_named.
    destruct (e !! k) as [v |] eqn:Hk; simpl.
    + rewrite (py_str_text_of v (Hc v eq_refl)). simpl. rewrite IH. reflexivity.
    + rewrite IH. reflexivity.
  - destruct Hc as (l & v & -> & Hi & Hv).
    rewrite (DefaultFormatter_get_positional e l i v Hi). simpl.
    rewrite Hi. simpl. rewrite (py_str_text_of v Hv). simpl. rewrite IH. reflexivity.
Qed.

Lemma vformat_strict (e : Event) (args : option (list value)) (cs : list chunk) :
  Forall (resolves e args) cs ->
  match vformat_chunks Formatter_get_value cs args e with
  | Ok s => s = render e args cs /\ forall k, Named k ∈ cs -> e !! k <> None
  | Raise (KeyError k) => Named k ∈ cs /\ e !! k = None
  | _ => False
  end.
Proof.
  induction 1 as [| c cs Hc _ IH].
  - simpl. split; [reflexivity |]. intros k Hk. apply elem_of_nil in Hk. contradiction.
  - destruct c as [s | k | i | |]; simpl in *; try contradiction.
    + destruct (vformat_chunks Formatter_get_value cs args e) as [r | [] |];
        simpl; try contradiction.
      * destruct IH as [-> Hall]. split; [reflexivity |].
        intros k Hk. apply elem_of_cons in Hk as [Hk | Hk]; [discriminate | eauto].
      * destruct IH as [Hin Hnone]. split; [right; exact Hin | exact Hnone].
    + destruct (e !! k) as [v |] eqn:Hk; simpl.
      * rewrite (py_str_text_of v (Hc v eq_refl)). simpl.
        destruct (vformat_chunks Formatter_get_value cs args e) as [r | [] |];
          simpl; try contradiction.
        -- destruct IH as [-> Hall]. split; [reflexivity |].
           intros k' Hk'. apply elem_of_cons in Hk' as [Hk' | Hk']; [| eauto].
           injection Hk' as ->. congruence.
        -- destruct IH as [Hin Hnone]. split; [right; exact Hin | exact Hnone].
      * split; [left | exact Hk].
    + destruct Hc as (l & v & -> & Hi & Hv). simpl. rewrite Hi. simpl.
      rewrite (py_str_text_of v Hv). simpl.
      destruct (vformat_chunks Formatter_get_value cs (Some l) e) as [r | [] |];
        simpl; try contradiction.
      * destruct IH as [-> Hall]. split; [reflexivity |].
        intros k Hk. apply elem_of_cons in Hk as [Hk | Hk]; [discriminate | eauto].
      * destruct IH as [Hin Hnone]. split; [right; exact Hin | exact Hnone].
Qed.

(** C5, as worded, fails: the default of [DefaultFormatter] covers missing
    names only.  A template with an absent name and a position, formatted
    without arguments, raises [TypeError] in default mode, and in strict
    mode it fails with [TypeError] when the position comes first, not
    with the missing-field error; a template with an absent name and a
    single brace raises [ValueError] in default mode. *)
Lemma Event_format_missing_counterexample :
  sample_event !! "missing" = None /\
  Named "missing" ∈ Formatter_parse "{missing} {0}" /\
  Event_format sample_event "{missing} {0}" None false = Raise TypeError /\
  Event_format sample_event "{0} {missing}" None true = Raise TypeError /\
  Event_format sample_event "{missing}{" None false = Raise ValueError.
Proof.
  split; [vm_compute; reflexivity |].
  split; [vm_compute; repeat constructor |].
  split; [| split]; vm_compute; reflexivity.
Qed.

(** C5 (amended): [Event.format] resolves the placeholders of a template
    against the fields of the event.  For every template of literal text
    and plain placeholders, names and positions, whose positions are
    within [args] and whose present names hold values that [str] renders:
    in default mode no error is raised and every name absent from the
    event renders as the empty string; in strict mode the call fails with
    the missing-field error, [KeyError], of an absent name as soon as the
    template contains one, and gives the same text as the default mode
    when it contains none. *)
Theorem Event_format_missing (e : Event) (fmt : string) (args : option (list value)) :
  Forall (resolves e args) (Formatter_parse fmt) ->
  Event_format e fmt args false = Ok (render e args (Formatter_parse fmt)) /\
  (forall k, Named k ∈ Formatter_parse fmt -> e !! k = None ->
     exists k', Named k' ∈ Formatter_parse fmt /\ e !! k' = None /\
                Event_format e fmt args true = Raise (KeyError k')) /\
  ((forall k, Named k ∈ Formatter_parse fmt -> e !! k <> None) ->
     Event_format e fmt args true = Ok (render e args (Formatter_parse fmt))).
Proof.
  intros Hres. unfold Event_format, vformat. simpl.
  split; [apply vformat_default; exact Hres |].
  pose proof (vformat_strict e args _ Hres) as Hstrict.
  destruct (vformat_chunks Formatter_get_value (Formatter_parse fmt) args e)
    as [s | [] |]; try contradiction.
  - destruct Hstrict as [-> Hall]. split; [| reflexivity].
    intros k Hk Hnone. exfalso. exact (Hall k Hk Hnone).
  - destruct Hstrict as [Hin Hnone]. split.
    + intros _ _ _. exists key. auto.
    + intros Hall. exfalso. exact (Hall key Hin Hnone).
Qed.

(** The template of the docstring of [Event.format], in both modes. *)
Lemma Event_format_missing_witness :
  Event_format sample_event "field={field} missing={missing}" None false
    = Ok "field=x missing=" /\
  exists k', Named k' ∈ Formatter_parse "field={field} missing={missing}" /\
             sample_event !! k' = None /\
             Event_format sample_event "field={field} missing={missing}" None true
             = Raise (KeyError k').
Proof.
  assert (Hres : Forall (resolves sample_event None)
                   (Formatter_parse "field={field} missing={missing}")).
  { assert (Hparse : Formatter_parse "field={field} missing={missing}"
                     = [Text "field="; Named "field"; Text " missing="; Named "missing"])
      by (vm_compute; reflexivity).
    rewrite Hparse.
    constructor; [exact I |].
    constructor;
      [intros v Hv; vm_compute in Hv; injection Hv as <-; reflexivity |].
    constructor; [exact I |].
    constructor; [intros v Hv; vm_compute in Hv; discriminate Hv |].
    constructor. }
  split.
  - exact (proj1 (Event_format_missing sample_event _ None Hres)).
  - apply (proj1 (proj2 (Event_format_missing sample_event _ None Hres)) "missing").
    + vm_compute. repeat constructor.
    + vm_compute. reflexivity.
Defined.

(** ** [Event.to_json] *)

Lemma append_cons (x : ascii) (a b : string) :
  String x a +:+ b = String x (a +:+ b).
Proof. reflexivity. Qed.

Lemma append_assoc (a b c : string) : (a +:+ b) +:+ c = a +:+ b +:+ c.
Proof.
  induction a as [| x a IH]; [reflexivity |].
  rewrite !append_cons, IH. reflexivity.
Qed.

Lemma append_nil_r (a : string) : a +:+ "" = a.
Proof.
  induction a as [| x a IH]; [reflexivity |].
  rewrite append_cons, IH. reflexivity.
Qed.

Lemma length_append (a b : string) :
  String.length (a +:+ b) = String.length a + String.length b.
Proof.
  induction a as [| x a IH]; [reflexivity |].
  rewrite append_cons. simpl. rewrite IH. reflexivity.
Qed.

Lemma length_zero_pad (w : nat) (n : N) : String.length (zero_pad w n) = w.
Proof.
  revert n. induction w as [| w IH]; intros n; simpl; [reflexivity |].
  rewrite length_append, IH. simpl. lia.
Qed.

Lemma all_plain_append (a b : string) :
  all_plain (a +:+ b) = all_plain a && all_plain b.
Proof.
  induction a as [| x a IH]; [reflexivity |].
  rewrite append_cons. simpl. rewrite IH, andb_assoc. reflexivity.
Qed.

Lemma digit_plain (n : N) : plain_char (digit n) = true.
Proof.
  unfold digit.
  assert (H : (n mod 10 < 10)%N) by (apply N.mod_upper_bound; discriminate).
  destruct (n mod 10)%N as [| p]; [reflexivity |].
  do 4 (destruct p as [p | p |]; try reflexivity; try (exfalso; lia)).
Qed.

Lemma zero_pad_plain (w : nat) (n : N) : all_plain (zero_pad w n) = true.
Proof.
  revert n. induction w as [| w IH]; intros n; simpl; [reflexivity |].
  rewrite all_plain_append, IH. simpl. rewrite digit_plain. reflexivity.
Qed.

Lemma isoformat_plain (t : datetime) : all_plain (isoformat t) = true.
Proof.
  unfold isoformat, isoformat_sep, isoformat_date, isoformat_time.
  destruct (N.eqb (microsecond t) 0);
    repeat (rewrite all_plain_append || rewrite zero_pad_plain); reflexivity.
Qed.

Lemma escape_char_plain (c : ascii) :
  plain_char c = true -> escape_char c = Ok (String c "").
Proof.
  unfold plain_char, escape_char. set (n := nat_of_ascii c). intros H.
  apply andb_true_iff in H as [H H92]. apply andb_true_iff in H as [H H34].
  apply andb_true_iff in H as [Hlo Hhi].
  apply Nat.leb_le in Hlo. apply negb_true_iff in H34, H92.
  rewrite H34, H92.
  replace (n =? 10) with false by (symmetry; apply Nat.eqb_neq; lia).
  replace (n =? 13) with false by (symmetry; apply Nat.eqb_neq; lia).
  replace (n =? 9) with false by (symmetry; apply Nat.eqb_neq; lia).
  replace (n =? 8) with false by (symmetry; apply Nat.eqb_neq; lia).
  replace (n =? 12) with false by (symmetry; apply Nat.eqb_neq; lia).
  replace (n <? 32) with false by (symmetry; apply Nat.ltb_ge; lia).
  apply Nat.ltb_lt in Hhi.
  replace (n =? 127) with false by (symmetry; apply Nat.eqb_neq; lia).
  replace (n <? 127) with true by (symmetry; apply Nat.ltb_lt; lia).
  reflexivity.
Qed.

Lemma escape_string_plain (s : string) :
  all_plain s = true -> escape_string s = Ok s.
Proof.
  induction s as [| c s IH]; simpl; [reflexivity |]. intros H.
  apply andb_true_iff in H as [Hc Hs].
  rewrite (escape_char_plain c Hc), (IH Hs). reflexivity.
Qed.

(** A [datetime] in any field is written as the string of its
    [isoformat()]. *)
Lemma JSONEncoder_encode_datetime (t : datetime) :
  JSONEncoder_encode (VDatetime t) = Ok (quote +:+ isoformat t +:+ quote).
Proof.
  simpl. unfold encode_basestring_ascii.
  rewrite (escape_string_plain _ (isoformat_plain t)). reflexivity.
Qed.

Lemma encode_item_timestamp (t : datetime) :
  encode_item ("timestamp", VDatetime t) = Ok (json_timestamp (isoformat t)).
Proof.
  unfold encode_item. cbn [fst snd]. rewrite JSONEncoder_encode_datetime. reflexivity.
Qed.

Lemma join_results_Ok (sep : string) (l : list (result string)) :
  Forall (fun r => is_Ok r = true) l -> exists s, join_results sep l = Ok s.
Proof.
  induction 1 as [| r l Hr _ [s IH]]; [exists ""; reflexivity |].
  destruct r as [a | |]; try discriminate Hr.
  destruct l as [| r' l']; [exists a; reflexivity |].
  exists (a +:+ sep +:+ s). change (join_results sep (Ok a :: r' :: l'))
    with (x <- Ok a ;; y <- join_results sep (r' :: l') ;; Ok (x +:+ sep +:+ y)).
  rewrite IH. reflexivity.
Qed.

Lemma join_results_middle (sep sx : string) (l1 l2 : list (result string)) :
  Forall (fun r => is_Ok r = true) (l1 ++ Ok sx :: l2) ->
  exists pre post, join_results sep (l1 ++ Ok sx :: l2) = Ok (pre +:+ sx +:+ post).
Proof.
  induction l1 as [| r l1 IH]; intros Hall.
  - apply Forall_cons in Hall as [_ Hall].
    destruct l2 as [| r' l2'].
    + exists "", "". simpl. rewrite append_nil_r. reflexivity.
    + destruct (join_results_Ok sep _ Hall) as [y Hy].
      exists "", (sep +:+ y).
      change (join_results sep ([] ++ Ok sx :: r' :: l2'))
        with (x <- Ok sx ;; y <- join_results sep (r' :: l2') ;; Ok (x +:+ sep +:+ y)).
      rewrite Hy. reflexivity.
  - apply Forall_cons in Hall as [Hr Hall].
    destruct (IH Hall) as (pre & post & Hjoin).
    destruct r as [a | |]; try discriminate Hr.
    exists (a +:+ sep +:+ pre), post.
    destruct (l1 ++ Ok sx :: l2) as [| r' l'] eqn:Hl.
    + destruct l1; discriminate Hl.
    + change (join_results sep ((Ok a :: l1) ++ Ok sx :: l2))
        with (join_results sep (Ok a :: (l1 ++ Ok sx :: l2))).
      rewrite Hl.
      change (join_results sep (Ok a :: r' :: l'))
        with (x <- Ok a ;; y <- join_results sep (r' :: l') ;; Ok (x +:+ sep +:+ y)).
      rewrite Hjoin. simpl. rewrite !append_assoc. reflexivity.
Qed.

Lemma number_from_append (acc : N) (a b : string) :
  number_from acc (a +:+ b) = number_from (number_from acc a) b.
Proof.
  revert acc. induction a as [| c a IH]; intros acc; simpl; [reflexivity | apply IH].
Qed.

Lemma N_of_digit (n : N) : (N_of_ascii (digit n) - 48 = n mod 10)%N.
Proof.
  unfold digit.
  assert (H : (n mod 10 < 10)%N) by (apply N.mod_upper_bound; discriminate).
  generalize dependent (n mod 10)%N. intros m H.
  rewrite N_ascii_embedding by lia. lia.
Qed.

Lemma number_from_zero_pad (w : nat) (n acc : N) :
  (n < 10 ^ N.of_nat w)%N ->
  number_from acc (zero_pad w n) = (acc * 10 ^ N.of_nat w + n)%N.
Proof.
  revert n acc. induction w as [| w IH]; intros n acc Hn.
  - simpl in *. lia.
  - rewrite Nat2N.inj_succ, N.pow_succ_r' in *.
    cbn [zero_pad]. rewrite number_from_append. cbn [number_from].
    rewrite N_of_digit, IH.
    + pose proof (N.div_mod' n 10). lia.
    + apply N.Div0.div_lt_upper_bound. exact Hn.
Qed.

Lemma valid_datetime_read_back (t : datetime) :
  valid_datetime t -> fields_read_back t.
Proof.
  intros (Hy & Hm & Hd & Hh & Hmi & Hs & Hus).
  unfold fields_read_back.
  repeat split; rewrite number_from_zero_pad; simpl; lia.
Qed.

Lemma encodableb_sound (e : Event) : encodableb e = true -> encodable e.
Proof.
  unfold encodableb, encodable. intros H kv Hkv.
  rewrite forallb_forall in H. apply H. apply list_elem_of_In. exact Hkv.
Qed.

Lemma to_json_member (e : Event) (k : string) (v : value) (text : string) :
  e !! k = Some v ->
  encodable e ->
  encode_item (k, v) = Ok text ->
  exists pre post, to_json e = Ok (pre +:+ text +:+ post).
Proof.
  intros Hk Henc Hitem.
  apply elem_of_map_to_list in Hk.
  destruct (list_elem_of_split _ _ Hk) as (l1 & l2 & Hl).
  assert (Hall : Forall (fun r => is_Ok r = true) (map encode_item (map_to_list e))).
  { apply List.Forall_forall. intros r Hr. apply in_map_iff in Hr as (kv & <- & Hin).
    apply Henc. apply list_elem_of_In. exact Hin. }
  unfold to_json. rewrite Hl, map_app in *. cbn [map] in *. rewrite Hitem in *.
  destruct (join_results_middle ", " text _ _ Hall) as (pre & post & ->).
  exists ("{" +:+ pre), (post +:+ "}"). simpl.
  rewrite !append_assoc. reflexivity.
Qed.

(** C6, as worded, fails: an event created on a whole second is written
    without the six digits of the fraction. *)
Lemma to_json_timestamp_counterexample :
  to_json whole_second_event = Ok ("{" +:+ json_timestamp "2013-01-01T02:34:56" +:+ "}") /\
  isoformat whole_second = "2013-01-01T02:34:56" /\
  iso8601_micro whole_second = "2013-01-01T02:34:56.000000".
Proof.
  split; [| split]; vm_compute; reflexivity.
Qed.

(** C6 (amended): [to_json()] writes the timestamp, like every [datetime]
    value, as the string of its [isoformat()]: the member [timestamp] of
    the object is the text YYYY-MM-DDTHH:MM:SS.uuuuuu, 26 characters with
    the six digits of the microsecond, when the microsecond is not zero,
    and the text YYYY-MM-DDTHH:MM:SS, 19 characters and no fraction, when
    it is zero; the digits written are those of the fields.  Every other
    value uses the standard JSON encoding. *)
Theorem to_json_timestamp (e : Event) (t : datetime) :
  e !! "timestamp" = Some (VDatetime t) ->
  encodable e ->
  valid_datetime t ->
  (exists pre post,
     to_json e = Ok (pre +:+ json_timestamp (isoformat t) +:+ post)) /\
  isoformat t
    = (if N.eqb (microsecond t) 0 then iso8601_seconds t else iso8601_micro t) /\
  String.length (iso8601_seconds t) = 19 /\
  String.length (iso8601_micro t) = 26 /\
  fields_read_back t /\
  (forall v, JSONEncoder_encode v =
     match v with
     | VNone => Ok "null"
     | VBool true => Ok "true"
     | VBool false => Ok "false"
     | VInt z => Ok (pretty z)
     | VStr s => encode_basestring_ascii s
     | VList l =>
       r <- join_results ", " (map JSONEncoder_encode l) ;; Ok ("[" +:+ r +:+ "]")
     | VDatetime t' => Ok (quote +:+ isoformat t' +:+ quote)
     | VAttr _ => Raise TypeError
     end).
Proof.
  intros Hts Henc Hvalid.
  split; [exact (to_json_member e _ _ _ Hts Henc (encode_item_timestamp t)) |].
  split.
  { unfold isoformat, isoformat_sep, iso8601_seconds, iso8601_micro.
    destruct (N.eqb (microsecond t) 0); [rewrite append_nil_r |]; reflexivity. }
  split.
  { unfold iso8601_seconds, isoformat_date, isoformat_time.
    rewrite !length_append, !length_zero_pad. reflexivity. }
  split.
  { unfold iso8601_micro, isoformat_date, isoformat_time.
    rewrite !length_append, !length_zero_pad. reflexivity. }
  split; [exact (valid_datetime_read_back t Hvalid) |].
  intros [| [|] | z | s | l | t' | k]; try reflexivity.
  apply JSONEncoder_encode_datetime.
Qed.

(** The event of the docstring of [Event.to_json]. *)
Lemma to_json_timestamp_witness :
  exists pre post,
    to_json sample_event
    = Ok (pre +:+ json_timestamp "2013-01-01T02:34:56.789012" +:+ post).
Proof.
  replace "2013-01-01T02:34:56.789012" with (isoformat sample_now)
    by (vm_compute; reflexivity).
  refine (proj1 (to_json_timestamp sample_event sample_now _ _ _)).
  - vm_compute. reflexivity.
  - apply encodableb_sound. vm_compute. reflexivity.
  - unfold valid_datetime. repeat split; vm_compute; discriminate.
Defined.

(** * Further properties of the code *)

(** ** Events: tags, constructor, field access *)

Lemma add_tag_Some (e : Event) (v : value) (l : list value) :
  tag_list e = Some l ->
  add_tag e v = Ok (<["tags" := VList (l ++ [v])]> e).
Proof.
  unfold tag_list, add_tag.
  destruct (e !! "tags") as [[] |]; intros H; try discriminate H;
    injection H as <-; reflexivity.
Qed.

Lemma tag_list_insert (e : Event) (l : list value) :
  tag_list (<["tags" := VList l]> e) = Some l.
Proof. unfold tag_list. rewrite lookup_insert_eq. reflexivity. Qed.

(** X1: [add_tag] appends to the tags, creating the list when the field is
    unset: afterwards the property [tags] yields the former tags followed by
    the new one and every other field is as before.  When the field [tags]
    holds something that is not a list, [add_tag] raises [AttributeError]. *)
Theorem add_tag_then_tags (e : Event) (v : value) :
  match tag_list e with
  | Some l =>
    exists e',
      add_tag e v = Ok e' /\
      getattr e' "tags" = Ok (VList (l ++ [v])) /\
      forall k, k <> "tags" -> e' !! k = e !! k
  | None => add_tag e v = Raise AttributeError
  end.
Proof.
  destruct (tag_list e) as [l |] eqn:Hl.
  - exists (<["tags" := VList (l ++ [v])]> e).
    split; [exact (add_tag_Some e v l Hl) |]. split.
    + rewrite getattr_tags, lookup_insert_eq. reflexivity.
    + intros k Hk. apply lookup_insert_ne. congruence.
  - unfold tag_list in Hl. unfold add_tag.
    destruct (e !! "tags") as [[] |]; try discriminate Hl; reflexivity.
Qed.

(** X2: tags added one after the other accumulate in the order of the
    calls, duplicates included, after the tags the event already had; no
    other field changes. *)
Theorem add_tags_accumulate (e : Event) (l vs : list value) :
  tag_list e = Some l ->
  exists e',
    add_tags e vs = Ok e' /\
    tag_list e' = Some (l ++ vs) /\
    forall k, k <> "tags" -> e' !! k = e !! k.
Proof.
  revert e l. induction vs as [| v vs IH]; intros e l Hl.
  - exists e. rewrite app_nil_r. auto.
  - simpl. rewrite (add_tag_Some e v l Hl). simpl.
    destruct (IH (<["tags" := VList (l ++ [v])]> e) (l ++ [v]) (tag_list_insert _ _))
      as (e' & Hadd & Htags & Hother).
    exists e'. split; [exact Hadd |]. split.
    + rewrite Htags, <- app_assoc. reflexivity.
    + intros k Hk. rewrite (Hother k Hk). apply lookup_insert_ne. congruence.
Qed.

(** Twice the same tag on a fresh event. *)
Lemma add_tags_accumulate_witness :
  exists e',
    add_tags sample_event [VStr "a"; VStr "a"] = Ok e' /\
    tag_list e' = Some ([] ++ [VStr "a"; VStr "a"]) /\
    forall k, k <> "tags" -> e' !! k = sample_event !! k.
Proof.
  apply (add_tags_accumulate sample_event [] [VStr "a"; VStr "a"]).
  vm_compute. reflexivity.
Defined.





Lemma compile_name (id : string) :
  is_identifier id = true ->
  id ∉ keywords ->
  id <> "None" ->
  compile id = Ok (LoadName id).
Proof.
  intros Hid Hkw Hnone. unfold compile. rewrite Hid.
  rewrite bool_decide_eq_false_2 by exact Hkw.
  apply String.eqb_neq in Hnone. rewrite Hnone. reflexivity.
Qed.

Lemma view_attributes_of_event (k : string) :
  k ∈ DefaultDictProxy_attributes -> k = "d" \/ k ∈ Event_attributes.
Proof.
  intros Hk.
  assert (Hall : forallb
            (fun k => String.eqb k "d" || bool_decide (k ∈ Event_attributes))
            DefaultDictProxy_attributes = true) by (vm_compute; reflexivity).
  rewrite forallb_forall in Hall.
  specialize (Hall k (proj1 (list_elem_of_In _ _) Hk)).
  apply orb_true_iff in Hall as [Hd | Hattr].
  - left. apply String.eqb_eq. exact Hd.
  - right. apply bool_decide_eq_true in Hattr. exact Hattr.
Qed.

(** X4: a stored field whose name is not an attribute of the class [Event]
    is read back as it was stored: by attribute access on the event, by
    item access on the view of conditions, by attribute access on the
    view unless the name is [d] (the view's own attribute, which holds the
    event), and by a condition string that consists of the name, when the
    name is an identifier that is neither a reserved word nor [None]. *)
Theorem field_access (e : Event) (k : string) (v : value) :
  e !! k = Some v ->
  k ∉ Event_attributes ->
  getattr e k = Ok v /\
  DefaultDictProxy___getitem__ e k = Ok v /\
  (k <> "d" -> view_attribute e k = Ok v) /\
  (is_identifier k = true -> k ∉ keywords -> k <> "None" ->
   exists c,
     compile_condition (Source k) = Ok c /\
     forall ev st, event_at st (d ev) = e -> c ev st = (Ok v, st)).
Proof.
  intros Hk Hattr.
  assert (H : getattr e k = Ok v).
  { rewrite (getattr_field e k Hattr). unfold dict_get. rewrite Hk. reflexivity. }
  split; [exact H |].
  split; [rewrite proxy_getitem_getattr; exact H |]. split.
  - intros Hd. unfold view_attribute.
    rewrite bool_decide_eq_false_2.
    + unfold DefaultDictProxy___getattr__. rewrite proxy_getitem_getattr. exact H.
    + intros Hin. destruct (view_attributes_of_event k Hin); contradiction.
  - intros Hid Hkw Hnone. exists (eval_condition (LoadName k)). split.
    + simpl. rewrite (compile_name k Hid Hkw Hnone). reflexivity.
    + intros ev st <-. unfold eval_condition. rewrite eval_name, H. reflexivity.
Qed.

(** [Event(field='x').field], [ev.field] on the view and the condition
    string [field]. *)
Lemma field_access_witness :
  getattr sample_event "field" = Ok (VStr "x") /\
  DefaultDictProxy___getitem__ sample_event "field" = Ok (VStr "x") /\
  view_attribute sample_event "field" = Ok (VStr "x") /\
  exists c,
    compile_condition (Source "field") = Ok c /\
    forall ev st, event_at st (d ev) = sample_event -> c ev st = (Ok (VStr "x"), st).
Proof.
  assert (Hfield : sample_event !! "field" = Some (VStr "x"))
    by (vm_compute; reflexivity).
  assert (Hattr : "field" ∉ Event_attributes)
    by (apply (bool_decide_unpack _); vm_compute; exact I).
  destruct (field_access sample_event "field" (VStr "x") Hfield Hattr)
    as (H1 & H2 & H3 & H4).
  split; [exact H1 |]. split; [exact H2 |]. split.
  - apply H3. discriminate.
  - apply H4.
    + reflexivity.
    + apply (bool_decide_unpack _). vm_compute. exact I.
    + discriminate.
Defined.

(** ** Templates and JSON *)

Lemma vformat_text gv (x : string) (args : option (list value)) (e : Event) :
  vformat_chunks gv (text_chunk x []) args e = Ok x.
Proof.
  unfold text_chunk. destruct (String.eqb_spec x "") as [-> | _]; simpl.
  - reflexivity.
  - rewrite append_nil_r. reflexivity.
Qed.

Lemma parse_text_escape_braces (s acc : string) :
  parse_text (escape_braces s) acc = text_chunk (acc +:+ s) [].
Proof.
  revert acc. induction s as [| c s IH]; intros acc.
  - simpl. rewrite append_nil_r. reflexivity.
  - cbn [escape_braces].
    destruct (Ascii.eqb c "{") eqn:Hopen; [| destruct (Ascii.eqb c "}") eqn:Hclose].
    + apply Ascii.eqb_eq in Hopen. subst c. cbn [orb parse_text].
      rewrite Ascii.eqb_refl, IH, append_assoc. reflexivity.
    + apply Ascii.eqb_eq in Hclose. subst c. cbn [orb parse_text].
      change (Ascii.eqb "}" "{") with false. cbn iota.
      rewrite Ascii.eqb_refl, IH, append_assoc. reflexivity.
    + cbn [orb parse_text]. rewrite Hopen, Hclose, IH, append_assoc. reflexivity.
Qed.

(** X5: a template in which every brace is doubled stands for its text
    with single braces, in both modes and whatever the event and the
    arguments; in particular a template without braces is returned as it
    is. *)
Theorem format_escaped_text (e : Event) (s : string)
    (args : option (list value)) (raise_missing : bool) :
  Event_format e (escape_braces s) args raise_missing = Ok s.
Proof.
  unfold Event_format, vformat, Formatter_parse.
  rewrite parse_text_escape_braces. apply vformat_text.
Qed.

Lemma get_value_position gv (i : nat) (args : option (list value)) (e : Event) (v : value) :
  gv = Formatter_get_value \/ gv = DefaultFormatter_get_value ->
  gv (inl i) args e = Ok v ->
  args ≫= (fun l => l !! i) = Some v.
Proof.
  intros [-> | ->]; unfold DefaultFormatter_get_value, Formatter_get_value;
    destruct args as [l |]; simpl; try discriminate;
    destruct (l !! i); intros H; try discriminate H;
    injection H as <-; reflexivity.
Qed.

Lemma get_value_position_error gv (i : nat) (args : option (list value)) (e : Event) :
  gv = Formatter_get_value \/ gv = DefaultFormatter_get_value ->
  args ≫= (fun l => l !! i) = None ->
  gv (inl i) args e
  = Raise (match args with None => TypeError | Some _ => IndexError end).
Proof.
  intros [-> | ->] H; unfold DefaultFormatter_get_value, Formatter_get_value;
    destruct args as [l |]; simpl in *; try reflexivity; rewrite H; reflexivity.
Qed.

Lemma vformat_Ok_positions gv (cs : list chunk) (args : option (list value))
    (e : Event) (s : string) :
  gv = Formatter_get_value \/ gv = DefaultFormatter_get_value ->
  vformat_chunks gv cs args e = Ok s ->
  forall i, Positional i ∈ cs -> is_Some (args ≫= (fun l => l !! i)).
Proof.
  intros Hgv. revert s. induction cs as [| c cs IH]; intros s Hs i Hi.
  - apply elem_of_nil in Hi. contradiction.
  - apply elem_of_cons in Hi.
    destruct c as [t | k | j | |]; simpl in Hs; try discriminate Hs.
    + destruct (vformat_chunks gv cs args e) as [r | |] eqn:Hr; try discriminate Hs.
      destruct Hi as [Hi | Hi]; [discriminate Hi | exact (IH r eq_refl i Hi)].
    + destruct (gv (inr k) args e) as [obj | |]; try discriminate Hs. simpl in Hs.
      destruct (py_str obj) as [t | |]; try discriminate Hs. simpl in Hs.
      destruct (vformat_chunks gv cs args e) as [r | |] eqn:Hr; try discriminate Hs.
      destruct Hi as [Hi | Hi]; [discriminate Hi | exact (IH r eq_refl i Hi)].
    + destruct (gv (inl j) args e) as [obj | |] eqn:Hobj; try discriminate Hs.
      simpl in Hs.
      destruct (py_str obj) as [t | |]; try discriminate Hs. simpl in Hs.
      destruct (vformat_chunks gv cs args e) as [r | |] eqn:Hr; try discriminate Hs.
      destruct Hi as [Hi | Hi]; [| exact (IH r eq_refl i Hi)].
      injection Hi as ->. rewrite (get_value_position gv j args e obj Hgv Hobj). eauto.
Qed.

Lemma vformat_texts_then gv (pre cs : list chunk) (args : option (list value))
    (e : Event) (x : exn) :
  forallb is_Text pre = true ->
  vformat_chunks gv cs args e = Raise x ->
  vformat_chunks gv (pre ++ cs) args e = Raise x.
Proof.
  intros Hpre Hcs. induction pre as [| c pre IH]; [exact Hcs |].
  destruct c; try discriminate Hpre. simpl in *. rewrite (IH Hpre). reflexivity.
Qed.

(** X6: the default of [DefaultFormatter] stands in for missing names
    only.  A template with a position that [args] does not have is never
    formatted, in either mode; when that position is the first field of
    the template, the call raises [TypeError] if [args] is [None] and
    [IndexError] if [args] is too short. *)
Theorem format_position_outside_args (e : Event) (fmt : string)
    (args : option (list value)) (raise_missing : bool) (i : nat) :
  Positional i ∈ Formatter_parse fmt ->
  args ≫= (fun l => l !! i) = None ->
  is_Ok (Event_format e fmt args raise_missing) = false /\
  (forall pre post,
     Formatter_parse fmt = pre ++ Positional i :: post ->
     forallb is_Text pre = true ->
     Event_format e fmt args raise_missing
     = Raise (match args with None => TypeError | Some _ => IndexError end)).
Proof.
  intros Hin Hnone. unfold Event_format, vformat.
  set (gv := if raise_missing then Formatter_get_value else DefaultFormatter_get_value).
  assert (Hgv : gv = Formatter_get_value \/ gv = DefaultFormatter_get_value)
    by (destruct raise_missing; auto).
  split.
  - destruct (vformat_chunks gv (Formatter_parse fmt) args e) as [s | |] eqn:Hs;
      try reflexivity.
    destruct (vformat_Ok_positions gv _ args e s Hgv Hs i Hin) as [v Hv].
    congruence.
  - intros pre post -> Hpre. apply vformat_texts_then; [exact Hpre |].
    simpl. rewrite (get_value_position_error gv i args e Hgv Hnone). reflexivity.
Qed.

(** Templates of the docstring of [Event.format], without arguments. *)
Lemma format_position_outside_args_witness :
  is_Ok (Event_format sample_event "field={field} arg1={0}" None false) = false /\
  Event_format sample_event "arg1={0}" None false = Raise TypeError /\
  Event_format sample_event "arg1={0}" (Some []) true = Raise IndexError.
Proof.
  assert (Hin : Positional 0 ∈ Formatter_parse "arg1={0}")
    by (vm_compute; repeat constructor).
  split; [| split].
  - apply (format_position_outside_args sample_event "field={field} arg1={0}"
             None false 0).
    + vm_compute. repeat constructor.
    + reflexivity.
  - apply (proj2 (format_position_outside_args sample_event "arg1={0}"
                    None false 0 Hin eq_refl) [Text "arg1="] []).
    + vm_compute. reflexivity.
    + reflexivity.
  - apply (proj2 (format_position_outside_args sample_event "arg1={0}"
                    (Some []) true 0 Hin eq_refl) [Text "arg1="] []).
    + vm_compute. reflexivity.
    + reflexivity.
Defined.

Lemma join_results_Ok_inv (sep : string) (l : list (result string)) (s : string) :
  join_results sep l = Ok s -> Forall (fun r => is_Ok r = true) l.
Proof.
  revert s. induction l as [| r l IH]; intros s Hs; [constructor |].
  destruct l as [| r' l'].
  - simpl in Hs. subst r. repeat constructor.
  - change (join_results sep (r :: r' :: l'))
      with (x <- r ;; y <- join_results sep (r' :: l') ;; Ok (x +:+ sep +:+ y)) in Hs.
    unfold bind in Hs.
    destruct r as [a | |]; try discriminate Hs.
    destruct (join_results sep (r' :: l')) as [y | |] eqn:Hy; try discriminate Hs.
    constructor; [reflexivity | exact (IH y eq_refl)].
Qed.

Lemma to_json_encodable (e : Event) (s : string) : to_json e = Ok s -> encodable e.
Proof.
  unfold to_json, encodable. intros Hs kv Hkv.
  destruct (join_results ", " (map encode_item (map_to_list e))) as [r | |] eqn:Hr;
    try discriminate Hs.
  apply join_results_Ok_inv in Hr. rewrite List.Forall_forall in Hr.
  apply Hr. apply in_map. apply list_elem_of_In. exact Hkv.
Qed.

(** X7: [to_json] returns a string exactly when every item of the event can
    be encoded, and then every field of the event is a member of the
    object: its encoded name, a colon and its encoded value stand in the
    string. *)
Theorem to_json_succeeds_iff (e : Event) :
  ((exists s, to_json e = Ok s) <-> encodable e) /\
  (forall s k v,
     to_json e = Ok s ->
     e !! k = Some v ->
     exists name text pre post,
       encode_basestring_ascii k = Ok name /\
       JSONEncoder_encode v = Ok text /\
       s = pre +:+ (name +:+ ": " +:+ text) +:+ post).
Proof.
  assert (Hmember : forall k v, e !! k = Some v -> encodable e ->
            exists name text,
              encode_basestring_ascii k = Ok name /\
              JSONEncoder_encode v = Ok text /\
              encode_item (k, v) = Ok (name +:+ ": " +:+ text)).
  { intros k v Hk Henc.
    pose proof (Henc (k, v) (proj2 (elem_of_map_to_list e k v) Hk)) as Hitem.
    unfold encode_item in *. cbn [fst snd] in *.
    destruct (encode_basestring_ascii k) as [name | |]; try discriminate Hitem.
    simpl in *.
    destruct (JSONEncoder_encode v) as [text | |]; try discriminate Hitem.
    exists name, text. auto. }
  split; [split |].
  - intros [s Hs]. exact (to_json_encodable e s Hs).
  - intros Henc. unfold to_json.
    assert (Hall : Forall (fun r => is_Ok r = true) (map encode_item (map_to_list e))).
    { apply List.Forall_forall. intros r Hr. apply in_map_iff in Hr as (kv & <- & Hin).
      apply Henc. apply list_elem_of_In. exact Hin. }
    destruct (join_results_Ok ", " _ Hall) as [r ->]. simpl. eauto.
  - intros s k v Hs Hk. pose proof (to_json_encodable e s Hs) as Henc.
    destruct (Hmember k v Hk Henc) as (name & text & Hname & Htext & Hitem).
    destruct (to_json_member e k v _ Hk Henc Hitem) as (pre & post & Hjson).
    exists name, text, pre, post. repeat split; try assumption. congruence.
Qed.

(** The event of the docstring of [Event.to_json] is encoded, and an event
    that holds a bound method is not. *)
Lemma to_json_succeeds_iff_witness :
  (exists s, to_json sample_event = Ok s) /\
  ~ encodable (<["method" := VAttr "get"]> sample_event).
Proof.
  split.
  - apply (proj1 (to_json_succeeds_iff sample_event)).
    apply encodableb_sound. vm_compute. reflexivity.
  - intros Henc.
    apply (proj1 (to_json_succeeds_iff (<["method" := VAttr "get"]> sample_event)))
      in Henc as [s Hs].
    assert (Hraise : to_json (<["method" := VAttr "get"]> sample_event) = Raise TypeError)
      by (vm_compute; reflexivity).
    rewrite Hraise in Hs. discriminate Hs.
Defined.

(** ** Wiring of the composites *)

Lemma stage_ind' (P : stage -> Prop) :
  (forall name i o, P (SimpleStage name i o)) ->
  (forall stages i o, Forall P stages -> P (Sequence stages i o)) ->
  (forall stages o, Forall P stages -> P (Fanin stages o)) ->
  (forall stages i o, Forall P stages -> P (Fanout stages i o)) ->
  (forall cases i o, Forall (fun cb => P cb.2) cases -> P (Switch cases i o)) ->
  (forall c br i o, P br -> P (If c br i o)) ->
  forall s, P s.
Proof.
  intros Hsimple Hseq Hfanin Hfanout Hswitch Hif. fix IH 1.
  assert (Hall : forall stages, Forall P stages).
  { fix IHl 1. intros [| s stages]; constructor; [apply IH | apply IHl]. }
  intros [name i o | stages i o | stages o | stages i o | cases i o | c br i o].
  - apply Hsimple.
  - apply Hseq, Hall.
  - apply Hfanin, Hall.
  - apply Hfanout, Hall.
  - apply Hswitch. revert cases. fix IHc 1.
    intros [| [c br] cases]; constructor; [apply IH | apply IHc].
  - apply Hif, IH.
Qed.

Lemma setup_each_spec (stages : list stage) (q : queue) (next : nat) :
  length (setup_each setup stages q next).1.2 = length stages /\
  length (setup_each setup stages q next).1.1 = length stages /\
  Forall (fun s => output_of s = q) (setup_each setup stages q next).1.2 /\
  (Forall (fun s => returns_input s = true) stages ->
   (setup_each setup stages q next).1.1
   = map input_of (setup_each setup stages q next).1.2).
Proof.
  revert next. induction stages as [| s stages IH]; intros next.
  - simpl. repeat split; constructor.
  - simpl.
    pose proof (setup_output s q next) as Hout.
    pose proof (setup_returns s q next) as Hret.
    destruct (setup s q next) as [[r s'] n1]. simpl in *.
    specialize (IH n1).
    destruct (setup_each setup stages q n1) as [[rs rest'] n2]. simpl in *.
    destruct IH as (Hl1 & Hl2 & Hall & Hmap).
    repeat split.
    + congruence.
    + congruence.
    + constructor; assumption.
    + intros Hr. apply Forall_cons in Hr as [Hs Hr].
      rewrite (Hmap Hr). destruct (Hret Hs) as [-> _]. reflexivity.
Qed.

(** X8: [Fanout.setup] gives every child the same output queue [q] and
    makes the input of the Fanout a broadcast over what the children's
    [setup] returned, one entry per child in the order of the children:
    the children's own input queues when every child returns its input. *)
Theorem Fanout_setup_spec (stages : list stage) (i o q : queue) (next : nat) :
  exists qs stages' n,
    setup (Fanout stages i o) q next
    = (BroadcastQueue qs, Fanout stages' (BroadcastQueue qs) q, n) /\
    length stages' = length stages /\
    length qs = length stages /\
    Forall (fun s => output_of s = q) stages' /\
    (Forall (fun s => returns_input s = true) stages -> qs = map input_of stages').
Proof.
  pose proof (setup_each_spec stages q next) as H. simpl.
  destruct (setup_each setup stages q next) as [[qs stages'] n]. simpl in H.
  exists qs, stages', n. split; [reflexivity | exact H].
Qed.

(** [with Fanout(): Log(); Elasticsearch()]: the broadcast is over the
    input queues of the two sinks. *)
Lemma Fanout_setup_spec_witness :
  exists qs stages' n,
    setup fanout_sinks (Queue 0) 1
    = (BroadcastQueue qs, Fanout stages' (BroadcastQueue qs) (Queue 0), n) /\
    qs = map input_of stages'.
Proof.
  destruct (Fanout_setup_spec
              [SimpleStage "Log" NoQueue NoQueue;
               SimpleStage "Elasticsearch" NoQueue NoQueue]
              NoQueue NoQueue (Queue 0) 1)
    as (qs & stages' & n & H & _ & _ & _ & Hmap).
  exists qs, stages', n. split; [exact H |].
  apply Hmap. repeat constructor.
Defined.

(** X9: [Fanin.setup] gives every child the same output queue [q], the
    output of the Fanin itself; it returns nothing and drops no child. *)
Theorem Fanin_setup_spec (stages : list stage) (o q : queue) (next : nat) :
  exists stages' n,
    setup (Fanin stages o) q next = (NoQueue, Fanin stages' q, n) /\
    length stages' = length stages /\
    Forall (fun s => output_of s = q) stages'.
Proof.
  pose proof (setup_each_spec stages q next) as H. simpl.
  destruct (setup_each setup stages q next) as [[qs stages'] n]. simpl in H.
  exists stages', n. split; [reflexivity |]. tauto.
Qed.

Lemma setup_cases_spec (cases : list (condition * stage)) (q : queue) (next : nat) :
  (setup_cases setup cases q next).1.*1 = cases.*1 /\
  Forall (fun cb => output_of cb.2 = q) (setup_cases setup cases q next).1.
Proof.
  revert next. induction cases as [| [c br] cases IH]; intros next.
  - simpl. split; [reflexivity | constructor].
  - simpl. pose proof (setup_output br q next) as Hout.
    destruct (setup br q next) as [[r br'] n1]. simpl in Hout.
    specialize (IH n1).
    destruct (setup_cases setup cases q n1) as [rest' n2]. simpl in *.
    destruct IH as [Hfst Hall]. split.
    + cbn. f_equal. exact Hfst.
    + constructor; assumption.
Qed.

(** X10: the branches rejoin.  [Switch.setup] keeps the conditions of the
    cases, in their order, and gives every branch the output queue [q] of
    the Switch itself; [If.setup] keeps its condition and gives its branch
    the output queue [q]. *)
Theorem branches_rejoin (q : queue) (next : nat) :
  (forall cases i o,
     exists cases' i' n,
       setup (Switch cases i o) q next = (i', Switch cases' i' q, n) /\
       cases'.*1 = cases.*1 /\
       Forall (fun cb => output_of cb.2 = q) cases') /\
  (forall c br i o,
     exists br' i' n,
       setup (If c br i o) q next = (i', If c br' i' q, n) /\
       output_of br' = q).
Proof.
  split.
  - intros cases i o. pose proof (setup_cases_spec cases q next) as H. simpl.
    destruct (setup_cases setup cases q next) as [cases' n]. simpl in H.
    destruct (SimpleStage_setup i n) as [i' n'].
    exists cases', i', n'. split; [reflexivity | exact H].
  - intros c br i o. pose proof (setup_output br q next) as H. simpl.
    destruct (setup br q next) as [[r br'] n]. simpl in H.
    destruct (SimpleStage_setup i n) as [i' n'].
    exists br', i', n'. split; [reflexivity | exact H].
Qed.

Lemma setup_reversed_last (stages : list stage) (q : queue) (next : nat) :
  length (setup_reversed setup stages q next).1.2 = length stages /\
  (stages = [] -> (setup_reversed setup stages q next).1.1 = q) /\
  forall s, last (setup_reversed setup stages q next).1.2 = Some s -> output_of s = q.
Proof.
  induction stages as [| s stages IH]; simpl.
  - split; [reflexivity |]. split; [reflexivity | discriminate].
  - destruct (setup_reversed setup stages q next) as [[q1 rest'] n1]. simpl in IH.
    destruct IH as (Hlen & Hnil & Hlast).
    pose proof (setup_output s q1 n1) as Hout.
    destruct (setup s q1 n1) as [[q2 s'] n2]. simpl in *.
    split; [congruence |]. split; [discriminate |].
    intros t Ht. destruct rest' as [| r rest''].
    + destruct stages; [| discriminate Hlen].
      simpl in Ht. injection Ht as <-. rewrite Hout. apply Hnil. reflexivity.
    + apply Hlast. exact Ht.
Qed.

(** X11: [Sequence.setup] on any children keeps their number, gives the
    last child the output queue [q] of the Sequence, and an empty Sequence
    takes [q] itself as input.  When every child returns its input from
    [setup] (simple stages, Fanout, Switch, If), each child's output is the
    input of the next child and the input of the Sequence is the input of
    its first child. *)
Theorem Sequence_setup_chain (stages : list stage) (i o q : queue) (next : nat) :
  exists q' stages' n,
    setup (Sequence stages i o) q next = (NoQueue, Sequence stages' q' q, n) /\
    length stages' = length stages /\
    (forall s, last stages' = Some s -> output_of s = q) /\
    (stages = [] -> q' = q) /\
    (Forall (fun s => returns_input s = true) stages ->
     q' = match stages' with [] => q | s1 :: _ => input_of s1 end /\
     forall j s, stages' !! j = Some s ->
       output_of s = match stages' !! S j with Some t => input_of t | None => q end).
Proof.
  pose proof (setup_reversed_last stages q next) as (Hlen & Hnil & Hlast).
  pose proof (setup_reversed_chain stages q next) as Hchain. simpl.
  destruct (setup_reversed setup stages q next) as [[q' stages'] n]. simpl in *.
  exists q', stages', n. split; [reflexivity |].
  split; [exact Hlen |]. split; [exact Hlast |]. split; [exact Hnil |].
  intros Hret. destruct (Hchain Hret) as (_ & Hq' & Hout). auto.
Qed.

(** [with Sequence(): Json(); Mutate(); Regex()]: the input of the
    Sequence is the input of [Json]. *)
Lemma Sequence_setup_chain_witness :
  exists q' stages' n,
    setup (Sequence three_filters NoQueue NoQueue) (Queue 0) 1
    = (NoQueue, Sequence stages' q' (Queue 0), n) /\
    q' = match stages' with [] => Queue 0 | s1 :: _ => input_of s1 end.
Proof.
  destruct (Sequence_setup_chain three_filters NoQueue NoQueue (Queue 0) 1)
    as (q' & stages' & n & H & _ & _ & _ & Hchain).
  exists q', stages', n. split; [exact H |].
  apply Hchain. repeat constructor.
Defined.

Lemma setup_reversed_erase (stages : list stage) (q : queue) (next : nat) :
  Forall (fun s => forall q n, erase (setup s q n).1.2 = erase s) stages ->
  map erase (setup_reversed setup stages q next).1.2 = map erase stages.
Proof.
  induction 1 as [| s stages Hs _ IH]; [reflexivity |]. simpl.
  destruct (setup_reversed setup stages q next) as [[q1 rest'] n1]. simpl in IH.
  specialize (Hs q1 n1).
  destruct (setup s q1 n1) as [[q2 s'] n2]. simpl in *. congruence.
Qed.

Lemma setup_each_erase (stages : list stage) (q : queue) (next : nat) :
  Forall (fun s => forall q n, erase (setup s q n).1.2 = erase s) stages ->
  map erase (setup_each setup stages q next).1.2 = map erase stages.
Proof.
  intros Hall. revert next. induction Hall as [| s stages Hs _ IH]; intros next;
    [reflexivity |]. simpl.
  specialize (Hs q next).
  destruct (setup s q next) as [[r s'] n1]. specialize (IH n1).
  destruct (setup_each setup stages q n1) as [[rs rest'] n2]. simpl in *. congruence.
Qed.

Lemma setup_cases_erase (cases : list (condition * stage)) (q : queue) (next : nat) :
  Forall (fun cb => forall q n, erase (setup cb.2 q n).1.2 = erase cb.2) cases ->
  map (fun cb => (cb.1, erase cb.2)) (setup_cases setup cases q next).1
  = map (fun cb => (cb.1, erase cb.2)) cases.
Proof.
  intros Hall. revert next. induction Hall as [| [c br] cases Hs _ IH]; intros next;
    [reflexivity |]. simpl in *.
  specialize (Hs q next).
  destruct (setup br q next) as [[r br'] n1]. specialize (IH n1).
  destruct (setup_cases setup cases q n1) as [rest' n2]. simpl in *. congruence.
Qed.

(** X12: [setup] only wires queues.  Whatever the graph, after [setup] it
    has the same stages with the same names, the same children and cases
    in the same order and the same conditions: only inputs and outputs
    differ. *)
Theorem setup_keeps_shape (s : stage) (q : queue) (next : nat) :
  erase (setup s q next).1.2 = erase s.
Proof.
  revert q next.
  induction s as [name i o | stages i o IH | stages o IH | stages i o IH
                  | cases i o IH | c br i o IH] using stage_ind'; intros q next; simpl.
  - destruct (SimpleStage_setup i next) as [i' n]. reflexivity.
  - pose proof (setup_reversed_erase stages q next IH) as H.
    destruct (setup_reversed setup stages q next) as [[q' stages'] n]. simpl in *.
    congruence.
  - pose proof (setup_each_erase stages q next IH) as H.
    destruct (setup_each setup stages q next) as [[qs stages'] n]. simpl in *.
    congruence.
  - pose proof (setup_each_erase stages q next IH) as H.
    destruct (setup_each setup stages q next) as [[qs stages'] n]. simpl in *.
    congruence.
  - pose proof (setup_cases_erase cases q next IH) as H.
    destruct (setup_cases setup cases q next) as [cases' n].
    destruct (SimpleStage_setup i n) as [i' n']. simpl in *. congruence.
  - specialize (IH q next). destruct (setup br q next) as [[r br'] n].
    destruct (SimpleStage_setup i n) as [i' n']. simpl in *. congruence.
Qed.

(** ** Configuration errors and name conditions *)

Lemma Switch_clauses_app (pre rest : list clause) (cases : list (condition * stage)) :
  Switch_clauses cases (pre ++ rest)
  = (cases' <- Switch_clauses cases pre ;; Switch_clauses cases' rest).
Proof.
  revert cases. induction pre as [| c pre IH]; intros cases; [reflexivity |].
  destruct c as [cond body | body]; simpl.
  - destruct (Switch___call__ cases cond body) as [cases' | |]; simpl;
      [apply IH | reflexivity ..].
  - apply IH.
Qed.

(** X13: a condition string is compiled when the case is configured, not
    when events flow: if it does not compile, building the Switch fails
    with the compiler's error, whatever cases stand before and after it,
    and so does building an If. *)
Theorem condition_compiled_at_configuration (source : string) (x : exn) :
  compile source = Raise x ->
  (forall pre body post,
     Forall clause_compiles pre ->
     Switch_build (pre ++ Case (Source source) body :: post) = Raise x) /\
  (forall body, If_build (Source source) body = Raise x).
Proof.
  intros Hx. split.
  - intros pre body post Hpre. unfold Switch_build.
    rewrite Switch_clauses_app.
    destruct (Switch_clauses_spec pre Hpre []) as [new [-> _]]. simpl.
    unfold Switch___call__. simpl. rewrite Hx. reflexivity.
  - intros body. unfold If_build. simpl. rewrite Hx. reflexivity.
Qed.

(** [with case('lambda'):] after a default case, and [If('lambda')]. *)
Lemma condition_compiled_at_configuration_witness :
  Switch_build (default_first ++ Case (Source "lambda") [] :: []) = Raise SyntaxError /\
  If_build (Source "lambda") [] = Raise SyntaxError.
Proof.
  assert (H : compile "lambda" = Raise SyntaxError) by (vm_compute; reflexivity).
  split.
  - apply (proj1 (condition_compiled_at_configuration "lambda" SyntaxError H)).
    repeat constructor.
  - apply (proj2 (condition_compiled_at_configuration "lambda" SyntaxError H)).
Defined.

(** X14: a condition string that is a single name compiles to a predicate
    that never raises: on every event it yields what attribute access
    yields for that name, the stored value or [None] for a name that is no
    attribute of the class (so an unset field makes the condition false),
    and the builtin of the same name, if any, is never consulted. *)
Theorem name_condition (id : string) :
  is_identifier id = true ->
  id ∉ keywords ->
  id <> "None" ->
  compile_condition (Source id) = Ok (eval_condition (LoadName id)) /\
  forall ev st,
    eval_condition (LoadName id) ev st = (getattr (event_at st (d ev)) id, st) /\
    is_Ok (getattr (event_at st (d ev)) id) = true /\
    (id ∉ Event_attributes ->
     getattr (event_at st (d ev)) id = Ok (dict_get (event_at st (d ev)) id)).
Proof.
  intros Hid Hkw Hnone. split.
  - simpl. rewrite (compile_name id Hid Hkw Hnone). reflexivity.
  - intros ev st. split; [| split].
    + unfold eval_condition. rewrite eval_name. reflexivity.
    + destruct (getattr_total (event_at st (d ev)) id) as [v ->]. reflexivity.
    + apply getattr_field.
Qed.

(** The condition string [tags] yields the tags of the event, the name
    of the builtin [True] an unset field. *)
Lemma name_condition_witness :
  eval_condition (LoadName "tags") (Proxy 0) sample_state = (Ok (VList []), sample_state) /\
  eval_condition (LoadName "True") (Proxy 0) sample_state = (Ok VNone, sample_state).
Proof.
  assert (Hkw : forall id, bool_decide (id ∉ keywords) = true -> id ∉ keywords).
  { intros id H. apply bool_decide_eq_true in H. exact H. }
  split.
  - exact (proj1 (proj2 (name_condition "tags" eq_refl
             (Hkw "tags" ltac:(vm_compute; reflexivity)) ltac:(discriminate))
             (Proxy 0) sample_state)).
  - exact (proj1 (proj2 (name_condition "True" eq_refl
             (Hkw "True" ltac:(vm_compute; reflexivity)) ltac:(discriminate))
             (Proxy 0) sample_state)).
Defined.

(** ** Routing: errors, single delivery, If and the default case *)

(** X15: an exception raised by a condition leaves [process] as it is: the
    cases after it are not evaluated and the event is put on no branch, so
    the state is the one that condition left.  The same holds of
    [If.process]. *)
Theorem process_condition_raises (event : nat) :
  (forall pre c br post st st1 st2 x,
     falls_through event pre st st1 ->
     c (Proxy event) st1 = (Raise x, st2) ->
     Switch_process (pre ++ (c, br) :: post) event st = (Raise x, st2)) /\
  (forall c branch st st1 x,
     c (Proxy event) st = (Raise x, st1) ->
     If_process c branch event st = (Raise x, st1)).
Proof.
  split.
  - intros pre c br post st st1 st2 x Hpre Hc.
    rewrite (Switch_process_falls_through event pre _ st st1 Hpre).
    simpl. unfold mbind. rewrite Hc. reflexivity.
  - intros c branch st st1 x Hc. unfold If_process, mbind. rewrite Hc. reflexivity.
Qed.

(** The condition [lambda ev: ev.add_tag('seen')] on an event whose field
    [tags] is a string. *)
Lemma process_condition_raises_witness :
  Switch_process ([] ++ (tagging "seen", Sequence [] (Queue 1) (Queue 0)) :: [case_A])
    0 state_bad_tags
  = (Raise AttributeError, state_bad_tags).
Proof.
  apply (proj1 (process_condition_raises 0)
           [] _ _ [case_A] state_bad_tags state_bad_tags state_bad_tags AttributeError).
  - constructor.
  - reflexivity.
Defined.

(** X16: [Switch.process] delivers at most once.  With conditions that
    have no effect and branches fed by queues, the call either returns
    true and changes nothing, or returns false after appending the event
    to the input queue of exactly one branch, or ends in the exception of
    a condition with nothing changed. *)
Theorem process_puts_at_most_once (cases : list (condition * stage))
    (event : nat) (st : state) :
  Forall (fun cb => read_only cb.1 /\ exists n, input_of cb.2 = Queue n) cases ->
  match (Switch_process cases event st).1 with
  | Ok false =>
    exists c br n,
      (c, br) ∈ cases /\ input_of br = Queue n /\
      (Switch_process cases event st).2 = enqueue n event st
  | _ => (Switch_process cases event st).2 = st
  end.
Proof.
  induction 1 as [| [c br] cases [Hro [n Hn]] _ IH]; [reflexivity |].
  simpl in *. unfold mbind. specialize (Hro (Proxy event) st).
  destruct (c (Proxy event) st) as [[v | x |] st1]; simpl in Hro; subst st1;
    try reflexivity.
  destruct (truthy v).
  - rewrite Hn. simpl. exists c, br, n. split; [left | auto].
  - destruct (Switch_process cases event st) as [[[|] | x |] st'] eqn:Hrest;
      simpl in *; try exact IH.
    destruct IH as (c' & br' & n' & Hin & Hn' & Hst).
    exists c', br', n'. split; [right; exact Hin | auto].
Qed.

(** The event of kind B in the Switch of kinds A and B. *)
Lemma process_puts_at_most_once_witness :
  match (Switch_process [case_A; case_B] 0 state_B).1 with
  | Ok false =>
    exists c br n,
      (c, br) ∈ [case_A; case_B] /\ input_of br = Queue n /\
      (Switch_process [case_A; case_B] 0 state_B).2 = enqueue n 0 state_B
  | _ => (Switch_process [case_A; case_B] 0 state_B).2 = state_B
  end.
Proof.
  apply (process_puts_at_most_once [case_A; case_B] 0 state_B).
  repeat constructor; try (intros ev st; reflexivity); eexists; reflexivity.
Defined.

(** X17: an If is a Switch with exactly one case, in wiring and in
    routing: [setup] returns the same input queue, allocates the same
    queues and wires the branch alike, and [process] takes the same
    decision with the same effect. *)
Theorem If_is_single_case_Switch (c : condition) (br : stage) (i o q : queue) (next : nat) :
  exists br' i' n,
    setup (If c br i o) q next = (i', If c br' i' q, n) /\
    setup (Switch [(c, br)] i o) q next = (i', Switch [(c, br')] i' q, n) /\
    forall event st,
      If_process c br' event st = Switch_process [(c, br')] event st.
Proof.
  simpl. destruct (setup br q next) as [[r br'] n].
  destruct (SimpleStage_setup i n) as [i' n'].
  exists br', i', n'. split; [reflexivity |]. split; [reflexivity |].
  intros event st. unfold If_process, mbind. simpl. unfold mbind.
  destruct (c (Proxy event) st) as [[v | x |] st1]; [| reflexivity ..].
  destruct (truthy v); [| reflexivity].
  destruct (put (input_of br') event st1) as [[[] | x |] st2]; reflexivity.
Qed.

Lemma Switch_process_default (cases : list (condition * stage)) (br : stage)
    (event : nat) (st : state) :
  (always, br) ∈ cases ->
  passes_through (Switch_process cases event st).1 = false.
Proof.
  intros Hin. revert st. induction cases as [| [c b] cases IH]; intros st.
  - apply elem_of_nil in Hin. contradiction.
  - simpl. unfold mbind. apply elem_of_cons in Hin as [Heq | Hin].
    + injection Heq as <- <-. simpl.
      destruct (put (input_of br) event st) as [[[] | x |] st']; reflexivity.
    + destruct (c (Proxy event) st) as [[v | x |] st1]; try reflexivity.
      destruct (truthy v); [| apply IH; exact Hin].
      destruct (put (input_of b) event st1) as [[[] | x |] st']; reflexivity.
Qed.

(** X18: with a default case among its cases, wherever it stands, a Switch
    passes no event through: [process] never returns true. *)
Theorem default_catches_every_event (cl : list clause)
    (cases : list (condition * stage)) (event : nat) (st : state) :
  Switch_clauses [] cl = Ok cases ->
  existsb is_Default cl = true ->
  passes_through (Switch_process cases event st).1 = false.
Proof.
  intros Hcl Hdef.
  assert (H : forall cl acc cases,
            Switch_clauses acc cl = Ok cases ->
            existsb is_Default cl = true ->
            exists br, (always, br) ∈ cases).
  { clear. induction cl as [| c cl IH]; intros acc cases Hcl Hdef; [discriminate |].
    assert (Hkeep : forall cl acc cases x,
              Switch_clauses acc cl = Ok cases -> x ∈ acc -> x ∈ cases).
    { clear. induction cl as [| c cl IH]; intros acc cases x Hcl Hx.
      - simpl in Hcl. injection Hcl as <-. exact Hx.
      - destruct c as [cond body | body]; simpl in Hcl.
        + unfold Switch___call__ in Hcl.
          destruct (compile_condition cond) as [f | |]; try discriminate Hcl.
          simpl in Hcl. apply (IH _ _ x Hcl). apply elem_of_app. left. exact Hx.
        + apply (IH _ _ x Hcl). apply elem_of_app. left. exact Hx. }
    destruct c as [cond body | body]; simpl in *.
    - unfold Switch___call__ in Hcl.
      destruct (compile_condition cond) as [f | |]; try discriminate Hcl.
      simpl in Hcl. exact (IH _ _ Hcl Hdef).
    - exists (Sequence body NoQueue NoQueue).
      apply (Hkeep _ _ _ _ Hcl). apply elem_of_app. right. left. }
  destruct (H cl [] cases Hcl Hdef) as [br Hbr].
  exact (Switch_process_default cases br event st Hbr).
Qed.

(** The configuration with the default clause first, on the sample event. *)
Lemma default_catches_every_event_witness :
  exists cases,
    Switch_clauses [] default_first = Ok cases /\
    passes_through (Switch_process cases 0 sample_state).1 = false.
Proof.
  eexists. split; [reflexivity |].
  apply (default_catches_every_event default_first _ 0 sample_state);
    reflexivity.
Defined.

(** X19: a matching branch that has no input queue makes [process] raise
    [AttributeError] in place of routing the event: a branch that was
    never set up, or one whose first child is a nested Sequence. *)
Theorem process_branch_without_input (event : nat) :
  forall pre c br post st st1 st2 v,
    falls_through event pre st st1 ->
    c (Proxy event) st1 = (Ok v, st2) ->
    truthy v = true ->
    input_of br = NoQueue ->
    Switch_process (pre ++ (c, br) :: post) event st = (Raise AttributeError, st2).
Proof.
  intros pre c br post st st1 st2 v Hpre Hc Hv Hin.
  rewrite (Switch_process_falls_through event pre _ st st1 Hpre).
  simpl. unfold mbind. rewrite Hc, Hv, Hin. reflexivity.
Qed.

(** A branch that begins with a nested Sequence, after [setup]. *)
Lemma process_branch_without_input_witness :
  Switch_process nested_branch_cases 0 sample_state
  = (Raise AttributeError, sample_state).
Proof.
  apply (process_branch_without_input 0 [] always _ []
           sample_state sample_state sample_state (VBool true)).
  - constructor.
  - reflexivity.
  - reflexivity.
  - reflexivity.
Defined.

(** ** Timestamps and tags in JSON *)

Lemma append_inj_length (a a' b b' : string) :
  String.length a = String.length a' ->
  a +:+ b = a' +:+ b' ->
  a = a' /\ b = b'.
Proof.
  revert a'. induction a as [| c a IH]; intros [| c' a'] Hlen H;
    try discriminate Hlen.
  - split; [reflexivity | exact H].
  - rewrite !append_cons in H. injection H as -> H.
    injection Hlen as Hlen. destruct (IH a' Hlen H) as [-> ->]. auto.
Qed.

Lemma zero_pad_inj (w : nat) (n m : N) :
  (n < 10 ^ N.of_nat w)%N ->
  (m < 10 ^ N.of_nat w)%N ->
  zero_pad w n = zero_pad w m ->
  n = m.
Proof.
  intros Hn Hm H.
  pose proof (number_from_zero_pad w n 0 Hn) as H1.
  pose proof (number_from_zero_pad w m 0 Hm) as H2.
  rewrite H in H1. rewrite H1 in H2. lia.
Qed.

Lemma isoformat_date_inj (t1 t2 : datetime) :
  valid_datetime t1 -> valid_datetime t2 ->
  isoformat_date t1 = isoformat_date t2 ->
  year t1 = year t2 /\ month t1 = month t2 /\ day t1 = day t2.
Proof.
  intros (Hy1 & Hm1 & Hd1 & _) (Hy2 & Hm2 & Hd2 & _). unfold isoformat_date. intros H.
  apply (append_inj_length (zero_pad 4 (year t1)) (zero_pad 4 (year t2)))
    in H as [Hy H]; [| rewrite !length_zero_pad; reflexivity].
  apply (append_inj_length "-" "-") in H as [_ H]; [| reflexivity].
  apply (append_inj_length (zero_pad 2 (month t1)) (zero_pad 2 (month t2)))
    in H as [Hm H]; [| rewrite !length_zero_pad; reflexivity].
  apply (append_inj_length "-" "-") in H as [_ Hd]; [| reflexivity].
  repeat split; eapply zero_pad_inj; try eassumption; simpl; lia.
Qed.

Lemma isoformat_time_inj (t1 t2 : datetime) :
  valid_datetime t1 -> valid_datetime t2 ->
  isoformat_time t1 = isoformat_time t2 ->
  hour t1 = hour t2 /\ minute t1 = minute t2 /\ second t1 = second t2.
Proof.
  intros (_ & _ & _ & Hh1 & Hm1 & Hs1 & _) (_ & _ & _ & Hh2 & Hm2 & Hs2 & _).
  unfold isoformat_time. intros H.
  apply (append_inj_length (zero_pad 2 (hour t1)) (zero_pad 2 (hour t2)))
    in H as [Hh H]; [| rewrite !length_zero_pad; reflexivity].
  apply (append_inj_length ":" ":") in H as [_ H]; [| reflexivity].
  apply (append_inj_length (zero_pad 2 (minute t1)) (zero_pad 2 (minute t2)))
    in H as [Hm H]; [| rewrite !length_zero_pad; reflexivity].
  apply (append_inj_length ":" ":") in H as [_ Hs]; [| reflexivity].
  repeat split; eapply zero_pad_inj; try eassumption; simpl; lia.
Qed.

Lemma length_isoformat_date (t : datetime) : String.length (isoformat_date t) = 10.
Proof. unfold isoformat_date. rewrite !length_append, !length_zero_pad. reflexivity. Qed.

Lemma length_isoformat_time (t : datetime) : String.length (isoformat_time t) = 8.
Proof. unfold isoformat_time. rewrite !length_append, !length_zero_pad. reflexivity. Qed.

(** X20: the text of a timestamp determines the instant: two valid
    datetimes that [JSONEncoder.default] turns into the same string are
    the same datetime, microsecond included. *)
Theorem timestamp_text_determines_instant (t1 t2 : datetime) :
  valid_datetime t1 ->
  valid_datetime t2 ->
  JSONEncoder_default (VDatetime t1) = JSONEncoder_default (VDatetime t2) ->
  t1 = t2.
Proof.
  intros Hv1 Hv2 Hdefault.
  assert (H : isoformat t1 = isoformat t2)
    by (unfold JSONEncoder_default in Hdefault; congruence).
  unfold isoformat, isoformat_sep in H.
  apply (append_inj_length (isoformat_date t1) (isoformat_date t2))
    in H as [Hdate H]; [| rewrite !length_isoformat_date; reflexivity].
  apply (append_inj_length "T" "T") in H as [_ H]; [| reflexivity].
  apply (append_inj_length (isoformat_time t1) (isoformat_time t2))
    in H as [Htime Hfrac]; [| rewrite !length_isoformat_time; reflexivity].
  destruct (isoformat_date_inj t1 t2 Hv1 Hv2 Hdate) as (Hy & Hm & Hd).
  destruct (isoformat_time_inj t1 t2 Hv1 Hv2 Htime) as (Hh & Hmi & Hs).
  assert (Hus : microsecond t1 = microsecond t2).
  { destruct Hv1 as (_ & _ & _ & _ & _ & _ & Hu1).
    destruct Hv2 as (_ & _ & _ & _ & _ & _ & Hu2).
    destruct (N.eqb_spec (microsecond t1) 0) as [E1 | E1];
      destruct (N.eqb_spec (microsecond t2) 0) as [E2 | E2].
    - congruence.
    - rewrite append_cons in Hfrac. discriminate Hfrac.
    - rewrite append_cons in Hfrac. discriminate Hfrac.
    - apply (append_inj_length "." ".") in Hfrac as [_ Hfrac]; [| reflexivity].
      eapply zero_pad_inj; try eassumption; simpl; lia. }
  destruct t1, t2. simpl in *. congruence.
Qed.

(** The instant of the docstring of [Event.to_json]. *)
Lemma timestamp_text_determines_instant_witness :
  JSONEncoder_default (VDatetime sample_now)
  = JSONEncoder_default (VDatetime (Datetime 2013 1 1 2 34 56 789012)) /\
  sample_now = Datetime 2013 1 1 2 34 56 789012.
Proof.
  split; [reflexivity |].
  apply timestamp_text_determines_instant.
  - unfold valid_datetime. repeat split; vm_compute; discriminate.
  - unfold valid_datetime. repeat split; vm_compute; discriminate.
  - reflexivity.
Defined.

Lemma join_results_map_Ok (sep : string) (l : list string) :
  join_results sep (map Ok l) = Ok (join sep l).
Proof.
  induction l as [| x l IH]; [reflexivity |].
  destruct l as [| y l']; [reflexivity |].
  change (join_results sep (map Ok (x :: y :: l')))
    with (a <- Ok x ;; b <- join_results sep (map Ok (y :: l')) ;; Ok (a +:+ sep +:+ b)).
  rewrite IH. reflexivity.
Qed.

Lemma encode_tags (ts js : list string) :
  Forall2 (fun t j => encode_basestring_ascii t = Ok j) ts js ->
  map JSONEncoder_encode (map VStr ts) = map Ok js.
Proof.
  induction 1 as [| t j ts js Ht _ IH]; [reflexivity |].
  simpl. rewrite IH. f_equal. exact Ht.
Qed.

(** X21: tags are written as a JSON array of strings: when the field
    [tags] holds a list of strings, the object [to_json] returns has the
    member [tags] whose value is the bracketed list of the encoded tags, in
    their order, separated by a comma and a space. *)
Theorem to_json_tags (e : Event) (ts js : list string) :
  e !! "tags" = Some (VList (map VStr ts)) ->
  Forall2 (fun t j => encode_basestring_ascii t = Ok j) ts js ->
  encodable e ->
  exists pre post, to_json e = Ok (pre +:+ json_tags js +:+ post).
Proof.
  intros Htags Hjs Henc.
  apply (to_json_member e "tags" (VList (map VStr ts)) _ Htags Henc).
  unfold encode_item. cbn [fst snd JSONEncoder_encode].
  rewrite (encode_tags ts js Hjs), join_results_map_Ok. reflexivity.
Qed.

(** An event tagged twice. *)
Lemma to_json_tags_witness :
  exists pre post,
    to_json (<["tags" := VList [VStr "a"; VStr "b"]]> sample_event)
    = Ok (pre +:+ json_tags [quote +:+ "a" +:+ quote; quote +:+ "b" +:+ quote] +:+ post).
Proof.
  apply (to_json_tags _ ["a"; "b"]).
  - vm_compute. reflexivity.
  - repeat constructor.
  - apply encodableb_sound. vm_compute. reflexivity.
Defined.

Lemma setup_each_Sequences (bodies : list (list stage)) (q : queue) (next : nat) :
  (setup_each setup (map (fun body => Sequence body NoQueue NoQueue) bodies) q next).1.1
  = map (fun _ => NoQueue) bodies.
Proof.
  revert next. induction bodies as [| body bodies IH]; intros next; [reflexivity |].
  cbn [map setup_each]. simpl.
  destruct (setup_reversed setup body q next) as [[q' body'] n1].
  specialize (IH n1).
  destruct (setup_each setup (map (fun body => Sequence body NoQueue NoQueue) bodies) q n1)
    as [[rs rest'] n2].
  simpl in *. rewrite IH. reflexivity.
Qed.

(** X22: a Fanout whose children are Sequences broadcasts to no queue:
    [Sequence.setup] returns nothing, so every entry of the broadcast that
    [Fanout.setup] builds is [None], however the Sequences are filled. *)
Theorem Fanout_of_Sequences (bodies : list (list stage)) (i o q : queue) (next : nat) :
  (setup (Fanout (map (fun body => Sequence body NoQueue NoQueue) bodies) i o) q next).1.1
  = BroadcastQueue (map (fun _ => NoQueue) bodies).
Proof.
  pose proof (setup_each_Sequences bodies q next) as H. simpl.
  destruct (setup_each setup (map (fun body => Sequence body NoQueue NoQueue) bodies) q next)
    as [[qs stages'] n].
  simpl in *. rewrite H. reflexivity.
Qed.
